(** * Learning_path: curriculum assembly, scheduling, notes and text layout

    A shallow embedding of [utils.py].  Python strings are modelled as
    [string] (sequences of one-byte characters), Python lists as [list],
    the [seen_urls] set as a [gset string], the process environment as a
    [gmap string string], and measured text widths as rationals. *)

From Stdlib Require Import Ascii String QArith Qround.
From stdpp Require Import base decidable option list gmap strings pretty.

Local Open Scope string_scope.
Local Open Scope list_scope.
Local Open Scope nat_scope.

(** ** Python string primitives *)

Module PyStr.

(** [c.lower()] on one character: only [A]..[Z] change. *)
Definition lower_ascii (c : ascii) : ascii :=
  let n := nat_of_ascii c in
  if (65 <=? n)%nat && (n <=? 90)%nat then ascii_of_nat (n + 32) else c.

(** [s.lower()] *)
Fixpoint lower (s : string) : string :=
  match s with
  | EmptyString => EmptyString
  | String c r => String (lower_ascii c) (lower r)
  end.

(** [needle in s]: [needle] occurs as a contiguous substring of [s]. *)
Fixpoint contains (needle s : string) : bool :=
  String.prefix needle s ||
  match s with
  | EmptyString => false
  | String _ r => contains needle r
  end.

(** [s.split(' ')]: cut at every single space; empty pieces are kept, and
    the result is never the empty list. *)
Fixpoint split_space (s : string) : list string :=
  match s with
  | EmptyString => [EmptyString]
  | String c r =>
      if Ascii.eqb c " "%char then EmptyString :: split_space r
      else match split_space r with
           | [] => [String c EmptyString]
           | w :: ws => String c w :: ws
           end
  end.

(** [' '.join(ws)] *)
Definition join_space (ws : list string) : string := String.concat " " ws.

(** The one-character string [c]. *)
Definition of_char (c : ascii) : string := String c EmptyString.

(** [''.join(pieces)] *)
Definition join_empty (pieces : list string) : string :=
  foldr String.append EmptyString pieces.

(** The characters of [s], in order. *)
Definition chars (s : string) : list ascii := list_ascii_of_string s.

(** Drop the longest prefix of characters satisfying [p]. *)
Fixpoint drop_while (p : ascii → bool) (cs : list ascii) : list ascii :=
  match cs with
  | c :: r => if p c then drop_while p r else cs
  | [] => []
  end.

(** [s] contains no space character. *)
Definition space_free (s : string) : Prop := " "%char ∉ chars s.

(** The non-empty strings of [l], in order. *)
Definition non_empty (l : list string) : list string :=
  filter (λ s, s ≠ EmptyString) l.

End PyStr.

(** ** Data model *)

(** The dictionary built for each search hit by [search_youtube_videos]. *)
Record VideoItem := mkVideo {
  title : string;
  url : string;
  duration : string;
  views : string;
  channel : string;
  description : string
}.

(** The three-field dictionary stored in a day of the schedule. *)
Record ScheduleEntry := mkEntry {
  entry_title : string;
  entry_url : string;
  entry_duration : string
}.

(** ** Curriculum assembler: deduplication *)

(** One iteration of the loop [for video in all_videos] over the pair
    [(unique_videos, seen_urls)]. *)
Definition dedup_step (st : list VideoItem * gset string) (video : VideoItem)
  : list VideoItem * gset string :=
  let '(unique_videos, seen_urls) := st in
  if bool_decide (url video ∉ seen_urls) && bool_decide (length unique_videos < 15)
  then (unique_videos ++ [video], {[url video]} ∪ seen_urls)
  else (unique_videos, seen_urls).

(** The value of [unique_videos] after the loop. *)
Definition collect_unique_videos (all_videos : list VideoItem) : list VideoItem :=
  (foldl dedup_step ([], ∅) all_videos).1.

(** Specification side: position [i] of [l] holds the first occurrence of
    its URL when no earlier position carries the same URL. *)
Definition first_occurrence_at (l : list VideoItem) (i : nat) : option VideoItem :=
  v ← l !! i;
  if bool_decide (url v ∈ url <$> take i l) then None else Some v.

(** Specification side: the first occurrences of every URL, in input order. *)
Definition first_occurrences (l : list VideoItem) : list VideoItem :=
  omap (first_occurrence_at l) (seq 0 (length l)).

(** ** Curriculum assembler: phases *)

(** [xs[a:b]] for non-negative bounds. *)
Definition slice {A} (a b : nat) (xs : list A) : list A := take (b - a) (drop a xs).

Definition phase_1 (unique_videos : list VideoItem) : list VideoItem :=
  if bool_decide (5 ≤ length unique_videos) then take 5 unique_videos
  else unique_videos.

Definition phase_2 (unique_videos : list VideoItem) : list VideoItem :=
  if bool_decide (10 ≤ length unique_videos) then slice 5 10 unique_videos
  else if bool_decide (5 < length unique_videos) then drop 5 unique_videos
  else [].

Definition phase_3 (unique_videos : list VideoItem) : list VideoItem :=
  if bool_decide (10 < length unique_videos) then drop 10 unique_videos
  else [].

(** Proof auxiliary: the first occurrences of [l] among URLs not already
    listed in [before]. *)
Definition first_occurrences_after (before : list string) (l : list VideoItem)
  : list VideoItem :=
  omap (λ i, v ← l !! i;
             if bool_decide (url v ∈ before ++ (url <$> take i l)) then None
             else Some v)
       (seq 0 (length l)).

(** ** Schedule builder *)

(** The value of [daily_videos] chosen from the commitment text. *)
Definition daily_videos (commitment : string) : nat :=
  if PyStr.contains "hour" (PyStr.lower commitment) then
    if PyStr.contains "1" commitment || PyStr.contains "one" commitment then 1
    else if PyStr.contains "2" commitment || PyStr.contains "two" commitment then 2
    else if PyStr.contains "3" commitment || PyStr.contains "three" commitment then 3
    else 2
  else 2.

(** The dictionary stored under one [day_k] key. *)
Record DayPlan := mkDay {
  day_videos : list ScheduleEntry;
  estimated_time : Q;
  focus : string
}.

Definition to_entry (v : VideoItem) : ScheduleEntry :=
  mkEntry (title v) (url v) (duration v).

(** The inner loop [for _ in range(daily_videos)] over the pair
    [(day_videos, video_index)].  After the test [video_index <
    total_videos] the subscript [videos[video_index]] is in range; the
    [None] branch of the lookup is never taken. *)
Fixpoint fill_day (count : nat) (videos : list VideoItem)
    (day_videos : list ScheduleEntry) (video_index : nat)
  : list ScheduleEntry * nat :=
  match count with
  | 0 => (day_videos, video_index)
  | S count' =>
      if bool_decide (video_index < length videos) then
        match videos !! video_index with
        | Some v => fill_day count' videos (day_videos ++ [to_entry v]) (S video_index)
        | None => fill_day count' videos day_videos video_index
        end
      else fill_day count' videos day_videos video_index
  end.

(** The key [f"day_{day}"]. *)
Definition day_key (day : nat) : string := "day_" +:+ pretty day.

(** [len(day_videos) * 0.5] *)
Definition half_hours (n : nat) : Q := (inject_Z (Z.of_nat n) * (1 # 2))%Q.

(** The dictionary assigned to [schedule[f"day_{day}"]]. *)
Definition make_day (today : list ScheduleEntry) : DayPlan :=
  mkDay today (half_hours (length today))
        ("Complete " +:+ pretty (length today) +:+ " video(s) from the playlist").

(** One iteration of [for day in range(1, days_needed + 1)] over the pair
    [(schedule, video_index)]; the schedule dictionary is kept as the list
    of its items in insertion order. *)
Definition schedule_step (daily : nat) (videos : list VideoItem)
    (st : list (string * DayPlan) * nat) (day : nat)
  : list (string * DayPlan) * nat :=
  let '(schedule, video_index) := st in
  let '(today, video_index') := fill_day daily videos [] video_index in
  (schedule ++ [(day_key day, make_day today)], video_index').

(** [max(1, total_videos // daily_videos)] *)
Definition days_needed (total_videos daily : nat) : nat :=
  Nat.max 1 (total_videos / daily).

(** The schedule for a given daily count. *)
Definition build_schedule (videos : list VideoItem) (daily : nat)
  : list (string * DayPlan) :=
  (foldl (schedule_step daily videos) ([], 0)
         (seq 1 (days_needed (length videos) daily))).1.

Definition generate_daily_schedule (videos : list VideoItem) (commitment : string)
  : list (string * DayPlan) :=
  build_schedule videos (daily_videos commitment).

(** Number of videos placed in the schedule. *)
Definition scheduled_count (schedule : list (string * DayPlan)) : nat :=
  sum_list ((λ kv, length (day_videos kv.2)) <$> schedule).

(** Specification side (C4): the ["hour"] test and all digit and word tests
    made on the lower-cased text. *)
Definition daily_videos_case_insensitive (commitment : string) : nat :=
  let text := PyStr.lower commitment in
  if PyStr.contains "hour" text then
    if PyStr.contains "1" text || PyStr.contains "one" text then 1
    else if PyStr.contains "2" text || PyStr.contains "two" text then 2
    else if PyStr.contains "3" text || PyStr.contains "three" text then 3
    else 2
  else 2.

(** A sample search hit. *)
Definition sample_video (k : nat) : VideoItem :=
  mkVideo ("Lesson " +:+ pretty k) ("https://youtu.be/v" +:+ pretty k)
          "10:00" "1K views" "Channel" "...".

(** ** Text wrapper *)

(** [x < y] on measured widths. *)
Definition Qltb (x y : Q) : bool := negb (Qle_bool y x).

Section TextWrapper.

(** [pdf.get_string_width] under the font selected by [pdf.set_font]
    at the start of both routines: the layout engine's measurement,
    left abstract. *)
Variable get_string_width : string → Q.

(** One iteration of [for char in token] over [(chunks, current_chunk)]. *)
Definition split_step (available_width : Q) (st : list string * string)
    (char : ascii) : list string * string :=
  let '(chunks, current_chunk) := st in
  if Qltb (get_string_width (current_chunk +:+ PyStr.of_char char)) available_width
  then (chunks, current_chunk +:+ PyStr.of_char char)
  else (chunks ++ [current_chunk], PyStr.of_char char).

(** The [font_size] argument only selects the font measured by
    [get_string_width]. *)
Definition _split_token_to_fit (token : string) (available_width : Q)
  : list string :=
  let '(chunks, current_chunk) :=
    foldl (split_step available_width) ([], EmptyString)
          (PyStr.chars token) in
  match current_chunk with
  | EmptyString => chunks
  | _ => chunks ++ [current_chunk]
  end.

(** [if current_line: pdf.multi_cell(..., ' '.join(current_line))]: the
    lines this statement emits. *)
Definition flush (current_line : list string) : list string :=
  match current_line with
  | [] => []
  | _ => [PyStr.join_space current_line]
  end.

(** One iteration of [for word in words] over [(emitted, current_line)],
    where [emitted] lists the text of every [pdf.multi_cell] call so far. *)
Definition render_step (available_width : Q) (st : list string * list string)
    (word : string) : list string * list string :=
  let '(emitted, current_line) := st in
  if Qltb available_width (get_string_width word) then
    (emitted ++ flush current_line ++ _split_token_to_fit word available_width, [])
  else
    let test_line := PyStr.join_space (current_line ++ [word]) in
    if Qltb (get_string_width test_line) available_width
    then (emitted, current_line ++ [word])
    else (emitted ++ [PyStr.join_space current_line], [word]).

(** The lines emitted by [_render_wrapped_text], in emission order;
    [font_size] only selects the font measured and [line_height] only the
    vertical step. *)
Definition _render_wrapped_text (text : string) (available_width : Q)
  : list string :=
  let '(emitted, current_line) :=
    foldl (render_step available_width) ([], []) (PyStr.split_space text) in
  emitted ++ flush current_line.

(** A line is acceptable when it is narrower than the available width, or
    is one of [tokens] and exactly as wide. *)
Definition line_ok (available_width : Q) (tokens : list string) (line : string)
  : Prop :=
  (get_string_width line < available_width)%Q
  ∨ ((get_string_width line == available_width)%Q ∧ line ∈ tokens).

(** What a token contributes to the output: itself, or its chunks when it
    is wider than the available width. *)
Definition expand_token (available_width : Q) (token : string) : list string :=
  if Qltb available_width (get_string_width token)
  then _split_token_to_fit token available_width
  else [token].

(** Specification side (C7, as it holds on the code): the input tokens in
    order, every over-wide token replaced by its chunks, and one empty token
    before every token that is exactly as wide as the available width and
    arrives while no token is accumulated; [fresh] tells that none is, which
    is so at the start and after an over-wide token. *)
Fixpoint expected_line_tokens (available_width : Q) (fresh : bool)
    (tokens : list string) : list string :=
  match tokens with
  | [] => []
  | token :: rest =>
      if Qltb available_width (get_string_width token) then
        _split_token_to_fit token available_width
          ++ expected_line_tokens available_width true rest
      else if fresh && negb (Qltb (get_string_width token) available_width) then
        "" :: token :: expected_line_tokens available_width false rest
      else token :: expected_line_tokens available_width false rest
  end.

End TextWrapper.

(** Specification side: the tokens of the emitted lines, every line cut at
    its single spaces as the input is, in emission order. *)
Definition line_tokens (lines : list string) : list string :=
  concat (PyStr.split_space <$> lines).

(** A fixed-pitch measurement: every character is one unit wide. *)
Definition char_count (s : string) : Q := inject_Z (Z.of_nat (String.length s)).

(** A measurement in which [W] is three units wide and any other character
    one unit. *)
Definition wide_W (s : string) : Q :=
  inject_Z (Z.of_nat (sum_list ((λ c, if Ascii.eqb c "W" then 3 else 1)
                                  <$> PyStr.chars s))).

(** ** Exceptions and the process environment *)

(** The exceptions the modelled code can meet. *)
Inductive exn :=
| ValueError (msg : string)
| CollaboratorError (msg : string).

(** The outcome of a Python call: a value or a raised exception. *)
Inductive py_result (A : Type) :=
| Ok (a : A)
| Raise (e : exn).
Arguments Ok {A} a.
Arguments Raise {A} e.

(** [os.getenv(key)]: the environment is a finite map from names to values. *)
Definition getenv (env : gmap string string) (key : string) : option string :=
  env !! key.

(** [os.getenv(key, fallback)] *)
Definition getenv_or (env : gmap string string) (key fallback : string) : string :=
  default fallback (env !! key).

(** Truth value of an [Optional[str]]: [None] and the empty string are false. *)
Definition truthy (v : option string) : bool :=
  match v with
  | None | Some EmptyString => false
  | Some _ => true
  end.

Module PyInt.

(** Characters removed by [int] around the literal. *)
Definition is_space (c : ascii) : bool :=
  match c with
  | "009" | "010" | "011" | "012" | "013" | " " => true
  | _ => false
  end%char.

Definition strip (cs : list ascii) : list ascii :=
  reverse (PyStr.drop_while is_space (reverse (PyStr.drop_while is_space cs))).

(** Decimal digits with single underscores between digits. *)
Fixpoint digits (acc : Z) (after_digit : bool) (cs : list ascii) : option Z :=
  match cs with
  | [] => if after_digit then Some acc else None
  | c :: r =>
      match Ascii.is_nat c with
      | Some d => digits (10 * acc + Z.of_nat d)%Z true r
      | None =>
          if Ascii.eqb c "_" && after_digit then digits acc false r else None
      end
  end.

(** [int(s)] for a string of one-byte characters: optional surrounding
    white space, an optional sign, then decimal digits; anything else
    raises [ValueError]. *)
Definition int (s : string) : py_result Z :=
  let parsed :=
    match strip (PyStr.chars s) with
    | "-"%char :: r => Z.opp <$> digits 0 false r
    | "+"%char :: r => digits 0 false r
    | cs => digits 0 false cs
    end in
  match parsed with
  | Some z => Ok z
  | None =>
      Raise (ValueError ("invalid literal for int() with base 10: '" +:+ s +:+ "'"))
  end.

End PyInt.

(** Sequencing of calls that may raise, and [try: ... except Exception:]. *)
Global Instance py_ret : MRet py_result := λ A a, Ok a.

Global Instance py_bind : MBind py_result := λ A B k m,
  match m with
  | Ok a => k a
  | Raise e => Raise e
  end.

Definition try_except {A} (body : py_result A) (handler : exn → py_result A)
  : py_result A :=
  match body with
  | Ok a => Ok a
  | Raise e => handler e
  end.

(** ** Video search *)

(** One entry of [results["result"]] as the search provider returns it;
    a missing key is [None]. *)
Record RawVideo := mkRaw {
  raw_title : option string;
  raw_link : option string;
  raw_duration : option string;
  raw_view_count_text : option string;
  raw_channel_name : option string;
  raw_description_snippet : list (option string)
}.

(** The [video_info] dictionary built from one entry. *)
Definition video_info (video : RawVideo) : VideoItem :=
  mkVideo
    (default "" (raw_title video))
    (default "" (raw_link video))
    (default "" (raw_duration video))
    (default "" (raw_view_count_text video))
    (default "" (raw_channel_name video))
    (match raw_description_snippet video with
     | first :: _ => String.substring 0 200 (default "" first) +:+ "..."
     | [] => ""
     end).

(** [VideosSearch(query, limit=max_results).result()]: the provider either
    raises or returns the entries under ["result"], [None] standing for a
    false result or one without that key. *)
Definition SearchProvider : Type :=
  string → nat → py_result (option (list RawVideo)).

Definition search_youtube_videos (provider : SearchProvider) (query : string)
    (max_results : nat) : py_result (list VideoItem) :=
  try_except
    (results ← provider query max_results;
     Ok (match results with
         | Some entries => video_info <$> entries
         | None => []
         end))
    (λ _, Ok []).

(** ** Curriculum assembler *)

Inductive Difficulty := beginner | intermediate | advanced.

Definition difficulty_name (d : Difficulty) : string :=
  match d with
  | beginner => "beginner"
  | intermediate => "intermediate"
  | advanced => "advanced"
  end.

Record Phase := mkPhase {
  phase_name : string;
  phase_description : string;
  phase_videos : list VideoItem
}.

(** The dictionary returned by [create_learning_playlist]. *)
Record Playlist := mkPlaylist {
  pl_topic : string;
  pl_difficulty : Difficulty;
  pl_background : string;
  pl_commitment : string;
  pl_total_videos : nat;
  pl_estimated_hours : Q;
  pl_phase_1 : Phase;
  pl_phase_2 : Phase;
  pl_phase_3 : Phase;
  pl_daily_schedule : list (string * DayPlan);
  pl_search_queries : list string
}.

Definition classify (background : string) : Difficulty :=
  if PyStr.contains "beginner" (PyStr.lower background)
     || PyStr.contains "absolute" (PyStr.lower background) then beginner
  else if PyStr.contains "intermediate" (PyStr.lower background) then intermediate
  else advanced.

Definition search_queries_for (d : Difficulty) (topic : string) : list string :=
  match d with
  | beginner =>
      [topic +:+ " tutorial for beginners"; topic +:+ " basics explained";
       topic +:+ " introduction course"; topic +:+ " fundamentals"]
  | intermediate =>
      [topic +:+ " intermediate tutorial"; topic +:+ " advanced concepts";
       topic +:+ " practical examples"; topic +:+ " real world applications"]
  | advanced =>
      [topic +:+ " advanced tutorial"; topic +:+ " expert level";
       topic +:+ " advanced concepts"; topic +:+ " professional development"]
  end.

(** The loop [for query in search_queries], extending [all_videos]. *)
Fixpoint search_all (provider : SearchProvider) (queries : list string)
    (all_videos : list VideoItem) : py_result (list VideoItem) :=
  match queries with
  | [] => Ok all_videos
  | query :: rest =>
      videos ← search_youtube_videos provider query 3;
      search_all provider rest (all_videos ++ videos)
  end.

Definition create_learning_playlist (provider : SearchProvider)
    (topic background commitment : string) : py_result Playlist :=
  let difficulty := classify background in
  let search_queries := search_queries_for difficulty topic in
  all_videos ← search_all provider search_queries [];
  (let unique_videos := collect_unique_videos all_videos in
   Ok (mkPlaylist topic difficulty background commitment
         (length unique_videos)
         (half_hours (length unique_videos))
         (mkPhase "Foundation" "Build basic understanding and concepts"
                  (phase_1 unique_videos))
         (mkPhase "Core Learning"
                  "Deep dive into main concepts and practical examples"
                  (phase_2 unique_videos))
         (mkPhase "Advanced Application"
                  "Advanced topics and real-world applications"
                  (phase_3 unique_videos))
         (generate_daily_schedule unique_videos commitment)
         search_queries)).

(** ** Notes composer *)

Module PyFmt.

Definition is_upper (c : ascii) : bool :=
  let n := nat_of_ascii c in (65 <=? n)%nat && (n <=? 90)%nat.

Definition is_lower (c : ascii) : bool :=
  let n := nat_of_ascii c in (97 <=? n)%nat && (n <=? 122)%nat.

Definition upper_ascii (c : ascii) : ascii :=
  if is_lower c then ascii_of_nat (nat_of_ascii c - 32) else c.

(** [s.upper()] *)
Fixpoint upper (s : string) : string :=
  match s with
  | EmptyString => EmptyString
  | String c r => String (upper_ascii c) (upper r)
  end.

(** [s.title()]: a letter is upper-cased when the character before it is
    not a letter and lower-cased otherwise. *)
Fixpoint title_from (after_letter : bool) (s : string) : string :=
  match s with
  | EmptyString => EmptyString
  | String c r =>
      if is_upper c || is_lower c then
        String (if after_letter then PyStr.lower_ascii c else upper_ascii c)
               (title_from true r)
      else String c (title_from false r)
  end.

Definition title (s : string) : string := title_from false s.

(** [s.replace(a, b)] for one-character [a] and [b]. *)
Fixpoint replace_char (a b : ascii) (s : string) : string :=
  match s with
  | EmptyString => EmptyString
  | String c r => String (if Ascii.eqb c a then b else c) (replace_char a b r)
  end.

(** [f"{x:.1f}"] for a non-negative [x]; exact on multiples of one tenth,
    which is all the program formats (multiples of one half). *)
Definition format_1f (x : Q) : string :=
  let tenths := Qfloor (x * 10 + (1 # 2)) in
  pretty (tenths / 10)%Z +:+ "." +:+ pretty (tenths mod 10)%Z.

End PyFmt.

(** The prompt sent to the narrative generator. *)
Definition base_context (topic background commitment : string) : string :=
  "
            Topic: "
  +:+ topic
  +:+ "
            Background: "
  +:+ background
  +:+ "
            Commitment: "
  +:+ commitment
  +:+ "
            
            Generate a comprehensive learning path with:
            1. Prerequisites
            2. Learning objectives
            3. Step-by-step curriculum
            4. Recommended resources
            5. Practice exercises
            6. Timeline estimates
            ".

(** The static fallback narrative. *)
Definition fallback_notes (topic background commitment : string) : string :=
  "
LEARNING PATH: "
  +:+ (PyFmt.upper topic)
  +:+ "

PREREQUISITES:
- Basic computer literacy
- Willingness to learn and practice

LEARNING OBJECTIVES:
- Understand fundamental concepts
- Build practical skills
- Complete hands-on projects
- Gain confidence in the subject

CURRICULUM:
Week 1-2: Fundamentals
- Introduction to "
  +:+ topic
  +:+ "
- Basic concepts and terminology
- Setting up development environment

Week 3-4: Core Concepts
- Key principles and methods
- Basic syntax and structure
- Simple examples and exercises

Week 5-6: Practical Application
- Building small projects
- Problem-solving exercises
- Best practices and tips

Week 7-8: Advanced Topics
- Complex concepts
- Real-world applications
- Next steps and resources

RECOMMENDED RESOURCES:
- Official documentation
- Online tutorials and courses
- Practice platforms
- Community forums

PRACTICE EXERCISES:
- Daily coding challenges
- Mini-projects
- Code reviews
- Pair programming

TIMELINE:
- Total: 8 weeks
- 5-10 hours per week
- Adjust based on your schedule

TIPS FOR SUCCESS:
- Practice regularly
- Build projects
- Join communities
- Stay consistent
- Don't rush - quality over speed

Your background: "
  +:+ background
  +:+ "
Your commitment: "
  +:+ commitment
  +:+ "

Remember: Learning is a journey, not a destination. Stay patient and persistent!
".

(** The text added before the per-day breakdown. *)
Definition playlist_header (playlist_data : Playlist) : string :=
  "

ðŸŽ¥ DAILY YOUTUBE LEARNING PLAYLIST

Topic: "
  +:+ (pl_topic playlist_data)
  +:+ "
Difficulty Level: "
  +:+ (PyFmt.title (difficulty_name (pl_difficulty playlist_data)))
  +:+ "
Total Videos: "
  +:+ (pretty (pl_total_videos playlist_data))
  +:+ "
Estimated Total Time: "
  +:+ (PyFmt.format_1f (pl_estimated_hours playlist_data))
  +:+ " hours

ðŸ“š LEARNING PHASES:

Phase 1: "
  +:+ (phase_name (pl_phase_1 playlist_data))
  +:+ "
"
  +:+ (phase_description (pl_phase_1 playlist_data))
  +:+ "
Videos: "
  +:+ (pretty (length (phase_videos (pl_phase_1 playlist_data))))
  +:+ " videos

Phase 2: "
  +:+ (phase_name (pl_phase_2 playlist_data))
  +:+ "
"
  +:+ (phase_description (pl_phase_2 playlist_data))
  +:+ "
Videos: "
  +:+ (pretty (length (phase_videos (pl_phase_2 playlist_data))))
  +:+ " videos

Phase 3: "
  +:+ (phase_name (pl_phase_3 playlist_data))
  +:+ "
"
  +:+ (phase_description (pl_phase_3 playlist_data))
  +:+ "
Videos: "
  +:+ (pretty (length (phase_videos (pl_phase_3 playlist_data))))
  +:+ " videos

ðŸ“… DAILY SCHEDULE:
".

(** The two lines added for one video of a day. *)
Definition day_video_lines (video : ScheduleEntry) : string :=
  ("
  â€¢ "
  +:+ (entry_title video)
  +:+ " ("
  +:+ (entry_duration video)
  +:+ ")")
  +:+ ("
    Link: "
  +:+ (entry_url video)).

(** The lines added for one item of [playlist_data['daily_schedule']]. *)
Definition day_lines (item : string * DayPlan) : string :=
  let '(day_key, day_data) := item in
  ("
"
  +:+ (PyFmt.title (PyFmt.replace_char "_" " " day_key))
  +:+ ":")
  +:+ ("
- Focus: "
  +:+ (focus day_data))
  +:+ ("
- Estimated Time: "
  +:+ (PyFmt.format_1f (estimated_time day_data))
  +:+ " hours")
  +:+ "
- Videos:"
  +:+ PyStr.join_empty (day_video_lines <$> day_videos day_data)
  +:+ "
".

(** The text added after the per-day breakdown. *)
Definition playlist_footer (playlist_data : Playlist) : string :=
  "
ðŸŽ¯ DAILY LEARNING TIPS:
- Watch videos at your own pace
- Take notes while watching
- Practice concepts after each video
- Review previous day's content before starting new videos
- Stay consistent with your daily schedule

ðŸ”— PLAYLIST SEARCH QUERIES USED:
"
  +:+ (String.concat ", " (pl_search_queries playlist_data))
  +:+ "
".

(** Everything appended to [notes] under [if playlist_data:]. *)
Definition curriculum_section (playlist_data : Playlist) : string :=
  playlist_header playlist_data
  +:+ PyStr.join_empty (day_lines <$> pl_daily_schedule playlist_data)
  +:+ playlist_footer playlist_data.

(** [client.generate_content(prompt).text]: the narrative generator either
    raises or returns its text. *)
Definition NarrativeGenerator : Type := string → py_result string.

(** [build_ai_client]: a client exists when [GEMINI_API_KEY] is set and
    non-empty. *)
Definition build_ai_client (env : gmap string string)
    (generator : NarrativeGenerator) : option NarrativeGenerator :=
  if truthy (getenv env "GEMINI_API_KEY") then Some generator else None.

(** The statements after the [if client:] block. *)
Definition fallback_with_playlist (topic background commitment : string)
    (playlist_data : option Playlist) : string :=
  let notes := fallback_notes topic background commitment in
  match playlist_data with
  | Some data => notes +:+ curriculum_section data
  | None => notes
  end.

Definition generate_learning_notes (env : gmap string string)
    (generator : NarrativeGenerator) (topic background commitment : string)
    (playlist_data : option Playlist) : string :=
  match build_ai_client env generator with
  | Some client =>
      match client (base_context topic background commitment) with
      | Ok text => text
      | Raise _ => fallback_with_playlist topic background commitment playlist_data
      end
  | None => fallback_with_playlist topic background commitment playlist_data
  end.

(** [s.endswith(suffix)] *)
Definition ends_with (suffix s : string) : bool :=
  let n := String.length s in
  let m := String.length suffix in
  (m <=? n)%nat && String.eqb (String.substring (n - m) m s) suffix.

(** ** Mail transport *)

Record EmailMessage := mkMessage {
  msg_from : string;
  msg_to : string;
  msg_subject : string;
  msg_content : string;
  msg_attachment : list Byte.byte;
  msg_attachment_filename : string
}.

(** The calls made on [ssl] and [smtplib]; [Quit] is the end of a [with]
    block. *)
Inductive SmtpCall :=
| CreateDefaultContext
| ConnectSSL (host : string) (port timeout : Z)
| Connect (host : string) (port timeout : Z)
| SetDebugLevel (level : Z)
| StartTLS
| Login (username password : string)
| SendMessage (msg : EmailMessage)
| Quit.

(** The transport: every call either succeeds or raises. *)
Definition SmtpServer : Type := SmtpCall → py_result unit.

(** A computation that makes transport calls: it extends the list of calls
    made so far and returns a value or raises. *)
Definition Smtp (A : Type) : Type := list SmtpCall → py_result A * list SmtpCall.

Definition smtp_ret {A} (a : A) : Smtp A := λ calls, (Ok a, calls).

Definition smtp_bind {A B} (m : Smtp A) (k : A → Smtp B) : Smtp B := λ calls,
  match m calls with
  | (Ok a, calls') => k a calls'
  | (Raise e, calls') => (Raise e, calls')
  end.

Definition smtp_call (server : SmtpServer) (c : SmtpCall) : Smtp unit :=
  λ calls, (server c, calls ++ [c]).

(** [with <connect> as server: <body>]: the session is opened, the body
    runs, and the session is closed whether or not the body raised. *)
Definition with_server (server : SmtpServer) (connect : SmtpCall)
    (body : Smtp unit) : Smtp unit := λ calls,
  match smtp_call server connect calls with
  | (Raise e, calls') => (Raise e, calls')
  | (Ok _, calls') =>
      let '(outcome, calls'') := body calls' in
      let '(closed, calls''') := smtp_call server Quit calls'' in
      (match closed with
       | Raise e => Raise e
       | Ok _ => outcome
       end, calls''')
  end.

(** A block of statements run in order; the first exception ends it. *)
Fixpoint smtp_block (statements : list (Smtp unit)) : Smtp unit :=
  match statements with
  | [] => smtp_ret ()
  | statement :: rest => smtp_bind statement (λ _, smtp_block rest)
  end.

(** [if cond: body] *)
Definition smtp_when (cond : bool) (body : Smtp unit) : Smtp unit :=
  if cond then body else smtp_ret ().

Definition required_keys : list string :=
  ["EMAIL_FROM"; "SMTP_HOST"; "SMTP_USERNAME"; "SMTP_PASSWORD"].

Definition get_missing_smtp_env_keys (env : gmap string string) : list string :=
  filter (λ key, truthy (getenv env key) = false) required_keys.

(** The body of the [try] block. *)
Definition smtp_session (server : SmtpServer) (smtp_secure_mode smtp_host : string)
    (smtp_port smtp_timeout smtp_debug : Z) (smtp_username smtp_password : string)
    (msg : EmailMessage) : Smtp unit :=
  if String.eqb smtp_secure_mode "ssl" then
    smtp_block
      [smtp_call server CreateDefaultContext;
       with_server server (ConnectSSL smtp_host smtp_port smtp_timeout)
         (smtp_block
            [smtp_when (negb (smtp_debug =? 0)%Z)
                       (smtp_call server (SetDebugLevel smtp_debug));
             smtp_call server (Login smtp_username smtp_password);
             smtp_call server (SendMessage msg)])]
  else
    with_server server (Connect smtp_host smtp_port smtp_timeout)
      (smtp_block
         [smtp_when (negb (smtp_debug =? 0)%Z)
                    (smtp_call server (SetDebugLevel smtp_debug));
          smtp_when (String.eqb smtp_secure_mode "starttls")
                    (smtp_block [smtp_call server CreateDefaultContext;
                                 smtp_call server StartTLS]);
          smtp_call server (Login smtp_username smtp_password);
          smtp_call server (SendMessage msg)]).

(** The three integer settings, converted in source order. *)
Definition smtp_integers (env : gmap string string) : py_result (Z * Z * Z) :=
  smtp_port ← PyInt.int (getenv_or env "SMTP_PORT" "587");
  smtp_timeout ← PyInt.int (getenv_or env "SMTP_TIMEOUT" "30");
  smtp_debug ← PyInt.int (getenv_or env "SMTP_DEBUG" "0");
  Ok (smtp_port, smtp_timeout, smtp_debug).

(** [str(v)] of an [Optional[str]] inside an f-string. *)
Definition str_of (v : option string) : string := default "None" v.

(** The calls made on the [EmailMessage] under construction. *)
Inductive MessageCall :=
| SetHeader (name value : string)
| SetContent (body_text : string)
| AddAttachment (data : list Byte.byte) (maintype subtype filename : string).

(** The [email] library: every call on the message either succeeds or
    raises; a header value with a line break, for one, is refused with
    [ValueError]. *)
Definition EmailLibrary : Type := MessageCall → py_result unit.

(** [msg = EmailMessage()] and the five statements that fill it, in source
    order; the first one that raises ends the construction. *)
Definition build_message (email : EmailLibrary)
    (sender to_address subject body_text : string)
    (attachment_bytes : list Byte.byte) (attachment_filename : string)
  : py_result EmailMessage :=
  _ ← email (SetHeader "From" sender);
  _ ← email (SetHeader "To" to_address);
  _ ← email (SetHeader "Subject" subject);
  _ ← email (SetContent body_text);
  _ ← email (AddAttachment attachment_bytes "application" "pdf"
                           attachment_filename);
  Ok (mkMessage sender to_address subject body_text
                attachment_bytes attachment_filename).

(** The result of the call and the transport calls it made.  The message
    is built after the check for missing keys and before the [try] block,
    so an exception of the [email] library leaves the function. *)
Definition send_email_with_attachment (env : gmap string string)
    (email : EmailLibrary)
    (server : SmtpServer) (to_address subject body_text : string)
    (attachment_bytes : list Byte.byte) (attachment_filename : string)
  : py_result bool * list SmtpCall :=
  let email_from := getenv env "EMAIL_FROM" in
  let email_from_name := getenv_or env "EMAIL_FROM_NAME" "Learning Path Bot" in
  let smtp_host := getenv env "SMTP_HOST" in
  let smtp_username := getenv env "SMTP_USERNAME" in
  let smtp_password := getenv env "SMTP_PASSWORD" in
  let smtp_secure_mode := PyStr.lower (getenv_or env "SMTP_SECURE" "starttls") in
  match smtp_integers env with
  | Raise e => (Raise e, [])
  | Ok (smtp_port, smtp_timeout, smtp_debug) =>
      match get_missing_smtp_env_keys env with
      | _ :: _ => (Ok false, [])
      | [] =>
          match build_message email
                  (email_from_name +:+ " <" +:+ str_of email_from +:+ ">")
                  to_address subject body_text
                  attachment_bytes attachment_filename with
          | Raise e => (Raise e, [])
          | Ok msg =>
              match smtp_session server smtp_secure_mode (str_of smtp_host)
                      smtp_port smtp_timeout smtp_debug
                      (str_of smtp_username) (str_of smtp_password) msg [] with
              | (Ok _, calls) => (Ok true, calls)
              | (Raise _, calls) => (Ok false, calls)
              end
          end
      end
  end.

(** Specification side (C9): the required keys that are not in the
    environment. *)
Definition absent_keys (env : gmap string string) : list string :=
  filter (λ key, env !! key = None) required_keys.

(** ** Sample collaborators and inputs *)

Definition sample_search : SearchProvider := λ query max_results,
  Ok (Some ((λ k, mkRaw (Some (query +:+ " part " +:+ pretty k))
                        (Some ("https://youtu.be/" +:+ query +:+ pretty k))
                        (Some "10:00") (Some "1K views") (Some "Channel") [])
              <$> seq 1 max_results)).

Definition failing_search : SearchProvider := λ _ _,
  Raise (CollaboratorError "search failed").

Definition sample_generator : NarrativeGenerator := λ _, Ok "AI narrative".

Definition failing_generator : NarrativeGenerator := λ _,
  Raise (CollaboratorError "generation failed").

Definition ai_env : gmap string string := {[ "GEMINI_API_KEY" := "key" ]}.

Definition smtp_env : gmap string string :=
  <["EMAIL_FROM" := "bot@example.org"]>
  (<["SMTP_HOST" := "smtp.example.org"]>
  (<["SMTP_USERNAME" := "bot"]>
  (<["SMTP_PASSWORD" := "secret"]> ∅))).

Definition accepting_server : SmtpServer := λ _, Ok ().

(** An [email] library that accepts every call. *)
Definition accepting_email : EmailLibrary := λ _, Ok ().

(** [True] when the text holds a line feed or a carriage return. *)
Definition has_line_break (s : string) : bool :=
  existsb (λ c, Ascii.eqb c "010" || Ascii.eqb c "013") (PyStr.chars s).

(** An [email] library that refuses every header value with a line feed or
    a carriage return. *)
Definition strict_email : EmailLibrary := λ c,
  match c with
  | SetHeader _ value =>
      if has_line_break value
      then Raise (ValueError
             "Header values may not contain linefeed or carriage return characters")
      else Ok ()
  | _ => Ok ()
  end.

Definition refusing_server : SmtpServer := λ c,
  match c with
  | Login _ _ => Raise (CollaboratorError "authentication failed")
  | _ => Ok ()
  end.

(** * Further parts of the program *)

(** ** Playlist search *)

(** [PlaylistsSearch(query, limit=1).result()]: the provider either raises
    or returns the entries under ["result"]; each entry is given by its
    ["link"] value, [None] when the entry has no such key. *)
Definition PlaylistProvider : Type :=
  string → nat → py_result (option (list (option string))).

Definition search_youtube_playlist (provider : PlaylistProvider) (query : string)
  : py_result (option string) :=
  try_except
    (results ← provider query 1;
     match results with
     | Some (first :: _) =>
         match first with
         | Some link => Ok (Some link)
         | None => Raise (CollaboratorError "KeyError: 'link'")
         end
     | _ => Ok None
     end)
    (λ _, Ok None).

(** Specification side: what one query contributes to [all_videos]. *)
Definition hits_for (provider : SearchProvider) (query : string) : list VideoItem :=
  match provider query 3 with
  | Ok (Some entries) => video_info <$> entries
  | _ => []
  end.

(** Specification side: the provider never returns more entries than the
    limit it is given. *)
Definition honours_limit (provider : SearchProvider) : Prop :=
  ∀ query max_results entries,
    provider query max_results = Ok (Some entries) →
    length entries ≤ max_results.

(** ** Reading the schedule *)

(** [items[key]] on a dictionary kept as its list of items. *)
Fixpoint dict_get {V} (key : string) (items : list (string * V)) : py_result V :=
  match items with
  | [] => Raise (CollaboratorError ("KeyError: " +:+ key))
  | (k, v) :: rest => if String.eqb k key then Ok v else dict_get key rest
  end.

(** The "Videos per day" figure of [display_playlist_summary]:
    [len(schedule['day_1']['videos']) if schedule else 0]. *)
Definition videos_per_day (schedule : list (string * DayPlan)) : py_result nat :=
  match schedule with
  | [] => Ok 0
  | _ => day ← dict_get "day_1" schedule; Ok (length (day_videos day))
  end.

(** ** Transport sessions *)

(** Specification side: the calls of a list made in order, stopping after
    the first one that raises; the result and the calls made. *)
Fixpoint run_calls (server : SmtpServer) (plan : list SmtpCall)
  : py_result unit * list SmtpCall :=
  match plan with
  | [] => (Ok (), [])
  | c :: rest =>
      match server c with
      | Ok _ => let '(outcome, made) := run_calls server rest in (outcome, c :: made)
      | Raise e => (Raise e, [c])
      end
  end.

(** Specification side: the calls [send_email_with_attachment] intends to
    make up to and including the connection, by security mode. *)
Definition plan_connect (smtp_secure_mode smtp_host : string)
    (smtp_port smtp_timeout : Z) : list SmtpCall :=
  if String.eqb smtp_secure_mode "ssl"
  then [CreateDefaultContext; ConnectSSL smtp_host smtp_port smtp_timeout]
  else [Connect smtp_host smtp_port smtp_timeout].

(** Specification side: the calls intended inside the [with] block. *)
Definition plan_session (smtp_secure_mode : string) (smtp_debug : Z)
    (smtp_username smtp_password : string) (msg : EmailMessage) : list SmtpCall :=
  (if (smtp_debug =? 0)%Z then [] else [SetDebugLevel smtp_debug])
  ++ (if String.eqb smtp_secure_mode "ssl" then []
      else if String.eqb smtp_secure_mode "starttls"
           then [CreateDefaultContext; StartTLS] else [])
  ++ [Login smtp_username smtp_password; SendMessage msg].

(** The settings read by [send_email_with_attachment] once the integer
    settings are converted and no required key is missing. *)
Definition secure_mode_of (env : gmap string string) : string :=
  PyStr.lower (getenv_or env "SMTP_SECURE" "starttls").

Definition message_of (env : gmap string string)
    (to_address subject body_text : string)
    (attachment_bytes : list Byte.byte) (attachment_filename : string)
  : EmailMessage :=
  mkMessage (getenv_or env "EMAIL_FROM_NAME" "Learning Path Bot"
             +:+ " <" +:+ str_of (getenv env "EMAIL_FROM") +:+ ">")
            to_address subject body_text attachment_bytes attachment_filename.

(** Specification side: the calls on the [email] library that build a
    message, in order. *)
Definition plan_message (msg : EmailMessage) : list MessageCall :=
  [SetHeader "From" (msg_from msg); SetHeader "To" (msg_to msg);
   SetHeader "Subject" (msg_subject msg); SetContent (msg_content msg);
   AddAttachment (msg_attachment msg) "application" "pdf"
                 (msg_attachment_filename msg)].

(** ** File name of the document *)

(** [os.path.join(a, b)] on a POSIX system. *)
Definition path_join (a b : string) : string :=
  if String.prefix "/" b then b
  else if String.eqb a "" || ends_with "/" a then a +:+ b
  else a +:+ "/" +:+ b.

(** [ensure_output_dir]: [os.makedirs("output", exist_ok=True)] may raise;
    the directory name is returned. *)
Definition ensure_output_dir (makedirs : string → py_result unit)
  : py_result string :=
  _ ← makedirs "output"; Ok "output".

(** [build_pdf_filename]; [timestamp] is
    [datetime.now().strftime("%Y%m%d_%H%M%S")]. *)
Definition build_pdf_filename (timestamp : string)
    (makedirs : string → py_result unit) (topic : string)
  : py_result (string * string) :=
  let filename :=
    "learning_path_" +:+ PyFmt.replace_char " " "_" (PyStr.lower topic)
      +:+ "_" +:+ timestamp +:+ ".pdf" in
  output_dir ← ensure_output_dir makedirs;
  Ok (filename, path_join output_dir filename).

(** Specification side: every adjacent pair of [l] satisfies [P]. *)
Fixpoint adjacent (P : string → string → Prop) (l : list string) : Prop :=
  match l with
  | a :: (b :: _) as rest => P a b ∧ adjacent P rest
  | _ => True
  end.

(** Specification side: chunk [b] follows chunk [a] because the first
    character of [b] did not fit behind [a]. *)
Definition closed_before (get_string_width : string → Q) (available_width : Q)
    (a b : string) : Prop :=
  ∃ c rest, b = String c rest
            ∧ (available_width <= get_string_width (a +:+ PyStr.of_char c))%Q.

(** Specification side: a chunk is empty, or narrower than the available
    width, or a single character. *)
Definition chunk_ok (get_string_width : string → Q) (available_width : Q)
    (chunk : string) : Prop :=
  chunk = "" ∨ (get_string_width chunk < available_width)%Q
  ∨ String.length chunk = 1.

(** * Theorems *)

(** ** Deduplication *)

Section Dedup.
Implicit Types (l acc : list VideoItem) (seen : gset string) (v : VideoItem).

Lemma omap_seq_S {B} (f : nat → option B) j n :
  omap f (seq (S j) n) = omap (f ∘ S) (seq j n).
Proof.
  revert j. induction n as [|n IH]; intros j; [done|].
  cbn [seq]. csimpl. rewrite IH. done.
Qed.

Lemma first_occurrences_after_nil l :
  first_occurrences l = first_occurrences_after [] l.
Proof. done. Qed.

Lemma first_occurrences_after_cons before v r :
  first_occurrences_after before (v :: r) =
  (if bool_decide (url v ∈ before) then [] else [v])
    ++ first_occurrences_after (before ++ [url v]) r.
Proof.
  unfold first_occurrences_after. cbn [length seq]. csimpl.
  rewrite app_nil_r, omap_seq_S.
  assert (Heq : omap
    ((λ i, (v :: r) !! i ≫= λ v0,
         if bool_decide (url v0 ∈ before ++ (url <$> take i (v :: r)))
         then None else Some v0) ∘ S) (seq 0 (length r))
    = omap (λ i, r !! i ≫= λ v0,
         if bool_decide (url v0 ∈ (before ++ [url v]) ++ (url <$> take i r))
         then None else Some v0) (seq 0 (length r))).
  { apply list_omap_ext, Forall2_same_length_lookup. split; [done|].
    intros i x y Hx Hy. assert (x = y) by congruence. subst y.
    cbn. destruct (r !! x) as [w|]; [|done]. cbn.
    rewrite <- (assoc_L (++)). done. }
  rewrite Heq. by case_bool_decide.
Qed.

Lemma dedup_fold_spec l : ∀ acc seen before,
  length acc ≤ 15 →
  (length acc < 15 → ∀ u, u ∈ seen ↔ u ∈ before) →
  (foldl dedup_step (acc, seen) l).1
  = take 15 (acc ++ first_occurrences_after before l).
Proof.
  induction l as [|v r IH]; intros acc seen before Hle Hseen.
  - cbn. rewrite app_nil_r, take_ge by lia. done.
  - cbn [foldl]. rewrite first_occurrences_after_cons.
    unfold dedup_step at 2.
    destruct (decide (length acc < 15)) as [Hlt|Hfull].
    + specialize (Hseen Hlt).
      destruct (decide (url v ∈ before)) as [Hin|Hout].
      * rewrite (bool_decide_eq_false_2 (url v ∉ seen)) by (rewrite Hseen; auto).
        rewrite (bool_decide_eq_true_2 _ Hin). cbn [andb app].
        apply IH; [done|]. intros _ u. rewrite Hseen. set_solver.
      * rewrite (bool_decide_eq_true_2 (url v ∉ seen)) by (rewrite Hseen; auto).
        rewrite (bool_decide_eq_true_2 _ Hlt), (bool_decide_eq_false_2 _ Hout).
        cbn [andb]. rewrite (IH _ _ (before ++ [url v])).
        -- by rewrite <- (assoc_L (++)).
        -- rewrite length_app. cbn. lia.
        -- intros _ u. rewrite elem_of_union, elem_of_singleton, Hseen.
           set_solver.
    + rewrite (bool_decide_eq_false_2 (length acc < 15)) by done.
      rewrite andb_false_r.
      rewrite (IH _ _ (before ++ [url v])); [|done|intros; lia].
      rewrite !take_app_le by lia. done.
Qed.

Lemma collect_unique_videos_spec l :
  collect_unique_videos l = take 15 (first_occurrences l).
Proof.
  unfold collect_unique_videos.
  rewrite (dedup_fold_spec l [] ∅ []); [done|cbn; lia|set_solver].
Qed.

Lemma first_occurrences_after_fresh before l v :
  v ∈ first_occurrences_after before l → url v ∉ before.
Proof.
  revert before. induction l as [|w r IH]; intros before.
  - unfold first_occurrences_after. cbn. by rewrite elem_of_nil.
  - rewrite first_occurrences_after_cons, elem_of_app.
    intros [Hv|Hv].
    + case_bool_decide; [by apply elem_of_nil in Hv|].
      apply list_elem_of_singleton in Hv. by subst.
    + apply IH in Hv. set_solver.
Qed.

Lemma first_occurrences_after_NoDup before l :
  NoDup (url <$> first_occurrences_after before l).
Proof.
  revert before. induction l as [|w r IH]; intros before.
  - unfold first_occurrences_after. cbn. constructor.
  - rewrite first_occurrences_after_cons.
    case_bool_decide; cbn [app]; [apply IH|].
    rewrite fmap_cons. constructor; [|apply IH].
    rewrite list_elem_of_fmap. intros (x & Hx & Hin).
    apply first_occurrences_after_fresh in Hin. set_solver.
Qed.

Lemma first_occurrences_after_sublist before l :
  sublist (first_occurrences_after before l) l.
Proof.
  revert before. induction l as [|w r IH]; intros before.
  - unfold first_occurrences_after. cbn. constructor.
  - rewrite first_occurrences_after_cons.
    case_bool_decide; cbn [app].
    + by apply sublist_cons.
    + by apply sublist_skip.
Qed.

Lemma first_occurrences_after_complete before l v :
  v ∈ l → url v ∈ before ∨ url v ∈ url <$> first_occurrences_after before l.
Proof.
  revert before. induction l as [|w r IH]; intros before Hv.
  - by apply elem_of_nil in Hv.
  - rewrite first_occurrences_after_cons, fmap_app, elem_of_app.
    apply elem_of_cons in Hv as [->|Hv].
    + case_bool_decide; [by left|]. right. left. cbn. by left.
    + destruct (IH (before ++ [url w]) Hv) as [Hb|Hf]; [|by right; right].
      apply elem_of_app in Hb as [Hb|Hb]; [by left|].
      apply list_elem_of_singleton in Hb. rewrite Hb.
      case_bool_decide; [by left|]. right. left. cbn. by left.
Qed.

Lemma dedup_fold_seen l : ∀ acc seen,
  (∀ u, u ∈ seen ↔ u ∈ url <$> acc) →
  ∀ u, u ∈ (foldl dedup_step (acc, seen) l).2
       ↔ u ∈ url <$> (foldl dedup_step (acc, seen) l).1.
Proof.
  induction l as [|v r IH]; intros acc seen Hinv; [done|].
  cbn [foldl]. unfold dedup_step at 2 4.
  destruct (bool_decide (url v ∉ seen) && bool_decide (length acc < 15));
    apply IH; [|done].
  intros u. rewrite fmap_app, elem_of_app, elem_of_union, Hinv. cbn.
  rewrite list_elem_of_singleton, elem_of_singleton. tauto.
Qed.

Lemma dedup_step_seen acc seen v :
  url v ∈ seen → dedup_step (acc, seen) v = (acc, seen).
Proof.
  intros Hin. unfold dedup_step.
  by rewrite (bool_decide_eq_false_2 (url v ∉ seen)) by auto.
Qed.

Lemma collect_unique_videos_skip_duplicate l1 v l2 :
  url v ∈ url <$> collect_unique_videos l1 →
  collect_unique_videos (l1 ++ v :: l2) = collect_unique_videos (l1 ++ l2).
Proof.
  unfold collect_unique_videos. intros Hin.
  rewrite !foldl_app. cbn [foldl].
  pose proof (dedup_fold_seen l1 [] ∅) as Hseen.
  destruct (foldl dedup_step ([], ∅) l1) as [acc seen] eqn:E.
  rewrite dedup_step_seen; [done|].
  apply Hseen; [set_solver|done].
Qed.

End Dedup.

(** C1. Deduplication in [create_learning_playlist] returns the first
    occurrence of every URL, in input order, cut after 15 entries: the
    result is the 15-element prefix of the list of first occurrences (so
    the cap counts admitted videos only), its URLs are pairwise distinct,
    it is a subsequence of the input, and removing from the input a later
    duplicate of an already admitted URL does not change the result. *)
Theorem C1_dedup_keeps_first_occurrences (all_videos : list VideoItem) :
  collect_unique_videos all_videos = take 15 (first_occurrences all_videos)
  ∧ NoDup (url <$> first_occurrences all_videos)
  ∧ sublist (first_occurrences all_videos) all_videos
  ∧ (∀ v, v ∈ all_videos → url v ∈ url <$> first_occurrences all_videos)
  ∧ NoDup (url <$> collect_unique_videos all_videos)
  ∧ sublist (collect_unique_videos all_videos) all_videos
  ∧ length (collect_unique_videos all_videos) ≤ 15
  ∧ (∀ l1 v l2, all_videos = l1 ++ v :: l2 →
       url v ∈ url <$> collect_unique_videos l1 →
       collect_unique_videos all_videos = collect_unique_videos (l1 ++ l2)).
Proof.
  pose proof (collect_unique_videos_spec all_videos) as Hspec.
  pose proof (first_occurrences_after_NoDup [] all_videos) as Hnd.
  pose proof (first_occurrences_after_sublist [] all_videos) as Hsub.
  rewrite <- first_occurrences_after_nil in Hnd, Hsub.
  repeat split; try done.
  - intros v Hv.
    destruct (first_occurrences_after_complete [] all_videos v Hv) as [H|H];
      [by apply elem_of_nil in H | done].
  - rewrite Hspec, fmap_take. eapply sublist_NoDup; [exact Hnd | apply sublist_take].
  - rewrite Hspec. etrans; [apply sublist_take | done].
  - rewrite Hspec, length_take. lia.
  - intros l1 v l2 -> Hin. by apply collect_unique_videos_skip_duplicate.
Qed.

(** ** Phases *)

Section Phases.
Context {A : Type}.
Implicit Types xs : list A.

Lemma slice_from_0 b xs : slice 0 b xs = take b xs.
Proof. unfold slice. rewrite Nat.sub_0_r. reflexivity. Qed.

Lemma slice_short a b xs : length xs ≤ a → slice a b xs = [].
Proof. intros H. unfold slice. rewrite drop_ge by done. apply take_nil. Qed.

Lemma slice_to_end a b xs : length xs ≤ b → slice a b xs = drop a xs.
Proof. intros H. unfold slice. apply take_ge. rewrite length_drop. lia. Qed.

Lemma slice_adjacent a b xs :
  a ≤ b → take a xs ++ slice a b xs = take b xs.
Proof.
  intros H. unfold slice.
  rewrite take_drop_commute.
  replace (a + (b - a)) with b by lia.
  rewrite <- (take_drop a (take b xs)) at 2.
  by rewrite take_take, Nat.min_l by lia.
Qed.
End Phases.

Lemma phase_1_slice (unique_videos : list VideoItem) :
  phase_1 unique_videos = slice 0 5 unique_videos.
Proof.
  unfold phase_1. rewrite slice_from_0.
  case_bool_decide; [done|]. by rewrite take_ge by lia.
Qed.

Lemma phase_2_slice (unique_videos : list VideoItem) :
  phase_2 unique_videos = slice 5 10 unique_videos.
Proof.
  unfold phase_2. repeat case_bool_decide; try done.
  - by rewrite slice_to_end by lia.
  - by rewrite slice_short by lia.
Qed.

Lemma phase_3_slice (unique_videos : list VideoItem) :
  length unique_videos ≤ 15 →
  phase_3 unique_videos = slice 10 15 unique_videos.
Proof.
  intros Hlen. unfold phase_3. case_bool_decide.
  - by rewrite slice_to_end by lia.
  - by rewrite slice_short by lia.
Qed.

(** C2. For a deduplicated list of at most 15 videos the three phases are
    the slices [0:5), [5:10) and [10:15) of the list, and their
    concatenation in phase order is the list itself. *)
Theorem C2_phases_partition (unique_videos : list VideoItem) :
  length unique_videos ≤ 15 →
  phase_1 unique_videos = slice 0 5 unique_videos
  ∧ phase_2 unique_videos = slice 5 10 unique_videos
  ∧ phase_3 unique_videos = slice 10 15 unique_videos
  ∧ phase_1 unique_videos ++ phase_2 unique_videos ++ phase_3 unique_videos
    = unique_videos.
Proof.
  intros Hlen.
  pose proof (phase_1_slice unique_videos) as H1.
  pose proof (phase_2_slice unique_videos) as H2.
  pose proof (phase_3_slice unique_videos Hlen) as H3.
  repeat split; try done.
  rewrite H1, H2, H3, slice_from_0, (assoc_L (++)).
  rewrite !slice_adjacent by lia. by apply take_ge.
Qed.

(** ** Schedule builder *)

Section Schedule.
Implicit Types (videos : list VideoItem) (d idx : nat).

Lemma daily_videos_range commitment : 1 ≤ daily_videos commitment ≤ 3.
Proof. unfold daily_videos. repeat case_match; lia. Qed.

Lemma fill_day_spec count : ∀ videos today idx,
  idx ≤ length videos →
  fill_day count videos today idx
  = (today ++ (to_entry <$> take count (drop idx videos)),
     Nat.min (idx + count) (length videos)).
Proof.
  induction count as [|c IH]; intros videos today idx Hidx.
  - cbn [fill_day]. rewrite take_0, app_nil_r. f_equal. lia.
  - cbn [fill_day]. case_bool_decide as Hlt.
    + destruct (lookup_lt_is_Some_2 videos idx Hlt) as [v Hv].
      rewrite Hv, IH by lia.
      rewrite (drop_S _ _ _ Hv). cbn [take fmap list_fmap].
      rewrite <- (assoc_L (++)). cbn [app]. f_equal. lia.
    + rewrite IH by lia. rewrite !drop_ge by lia.
      rewrite !take_nil. f_equal. lia.
Qed.

Lemma schedule_fold_spec d videos m : ∀ j schedule idx,
  foldl (schedule_step d videos) (schedule, Nat.min idx (length videos)) (seq j m)
  = (schedule ++
       ((λ i, (day_key (j + i),
               make_day (to_entry <$> take d (drop (idx + i * d) videos))))
          <$> seq 0 m),
     Nat.min (idx + m * d) (length videos)).
Proof.
  induction m as [|m IH]; intros j schedule idx.
  - cbn. rewrite app_nil_r. f_equal. lia.
  - cbn [seq foldl]. unfold schedule_step at 2.
    rewrite fill_day_spec by lia. cbn [app].
    replace (Nat.min (Nat.min idx (length videos) + d) (length videos))
      with (Nat.min (idx + d) (length videos)) by lia.
    rewrite IH. rewrite <- (assoc_L (++)). cbn [app fmap list_fmap].
    f_equal; [|f_equal; lia].
    f_equal. f_equal.
    + f_equal; [f_equal; lia|].
      f_equal. f_equal.
      destruct (decide (idx ≤ length videos)).
      * by rewrite Nat.min_l, Nat.add_0_r by lia.
      * by rewrite !drop_ge by lia.
    + rewrite <- fmap_S_seq, <- list_fmap_compose.
      apply list_fmap_ext. intros _ i _. cbn.
      do 2 f_equal; [f_equal; lia|]. do 3 f_equal. lia.
Qed.

Lemma build_schedule_spec videos d :
  build_schedule videos d
  = (λ k, (day_key k,
           make_day (to_entry <$> slice ((k - 1) * d) (k * d) videos)))
      <$> seq 1 (days_needed (length videos) d).
Proof.
  unfold build_schedule.
  pose proof (schedule_fold_spec d videos (days_needed (length videos) d)
                1 [] 0) as H.
  rewrite Nat.min_0_l in H. rewrite H. cbn [fst app].
  rewrite <- fmap_S_seq, <- list_fmap_compose.
  apply list_fmap_ext. intros _ i _. cbn - [Nat.mul Nat.sub].
  unfold slice. replace (S i - 1) with i by lia.
  replace (S i * d - i * d) with d by lia. done.
Qed.

Lemma concat_slices {A} (xs : list A) d m :
  concat ((λ k, slice ((k - 1) * d) (k * d) xs) <$> seq 1 m) = take (m * d) xs.
Proof.
  induction m as [|m IH]; [done|].
  rewrite seq_S, fmap_app, concat_app, IH. cbn [fmap list_fmap concat].
  rewrite app_nil_r.
  replace (1 + m - 1) with m by lia.
  apply slice_adjacent. lia.
Qed.

End Schedule.

Lemma concat_fmap_each {A B K} (f : A → B) (g : K → list A) (ks : list K) :
  concat ((λ k, f <$> g k) <$> ks) = f <$> concat (g <$> ks).
Proof.
  induction ks as [|k ks IH]; [done|].
  cbn [fmap list_fmap concat]. rewrite fmap_app. f_equal. apply IH.
Qed.

Lemma day_key_inj : Inj (=) (=) day_key.
Proof.
  intros j k H. unfold day_key in H. cbn in H.
  injection H as H. by apply (inj pretty).
Qed.

Lemma scheduled_count_build videos d :
  scheduled_count (build_schedule videos d)
  = Nat.min (length videos) (days_needed (length videos) d * d).
Proof.
  unfold scheduled_count.
  rewrite build_schedule_spec, <- list_fmap_compose.
  erewrite list_fmap_ext.
  2: { intros _ k _. cbn. rewrite length_fmap. reflexivity. }
  rewrite (list_fmap_compose (λ k, slice ((k - 1) * d) (k * d) videos) length).
  rewrite <- length_concat, concat_slices, length_take. lia.
Qed.

(** C3, as it holds on the code. For every video list of length [n] and every commitment,
    with [d] the inferred daily count (always 1, 2 or 3) the schedule has
    exactly [max(1, n // d)] days with the distinct keys [day_1], [day_2],
    ... in order; day [k] holds the videos at indices [(k-1)d, kd), cut at
    the end of the list, in original order; all days together hold the
    first [days * d] videos, so the total is [min(n, days * d)].  When
    [d <= n] exactly [n mod d] trailing videos stay unscheduled; when
    [n < d] the single day holds all [n] videos. *)
Theorem C3_schedule_shape (videos : list VideoItem) (commitment : string) :
  let d := daily_videos commitment in
  let n := length videos in
  let days := Nat.max 1 (n / d) in
  let schedule := generate_daily_schedule videos commitment in
  1 ≤ d ≤ 3
  ∧ length schedule = days
  ∧ schedule.*1 = day_key <$> seq 1 days
  ∧ NoDup (schedule.*1)
  ∧ (λ kv, day_videos kv.2) <$> schedule
    = (λ k, to_entry <$> slice ((k - 1) * d) (k * d) videos) <$> seq 1 days
  ∧ schedule.*2
    = (λ k, make_day (to_entry <$> slice ((k - 1) * d) (k * d) videos)) <$> seq 1 days
  ∧ concat ((λ kv, day_videos kv.2) <$> schedule) = to_entry <$> take (days * d) videos
  ∧ scheduled_count schedule = Nat.min n (days * d)
  ∧ (d ≤ n → scheduled_count schedule = n - n mod d)
  ∧ (n < d → scheduled_count schedule = n).
Proof.
  intros d n days schedule.
  pose proof (daily_videos_range commitment) as Hd. fold d in Hd.
  assert (Hsched : schedule
    = (λ k, (day_key k, make_day (to_entry <$> slice ((k - 1) * d) (k * d) videos)))
        <$> seq 1 days).
  { subst schedule. unfold generate_daily_schedule. by rewrite build_schedule_spec. }
  assert (Hcount : scheduled_count schedule = Nat.min n (days * d)).
  { subst schedule. unfold generate_daily_schedule. apply scheduled_count_build. }
  split; [done|].
  split; [by rewrite Hsched, length_fmap, length_seq|].
  assert (Hkeys : schedule.*1 = day_key <$> seq 1 days).
  { rewrite Hsched, <- list_fmap_compose. done. }
  split; [done|].
  split; [rewrite Hkeys; apply (NoDup_fmap_2 _), NoDup_seq|].
  assert (Hvids : (λ kv, day_videos kv.2) <$> schedule
    = (λ k, to_entry <$> slice ((k - 1) * d) (k * d) videos) <$> seq 1 days).
  { rewrite Hsched, <- list_fmap_compose. done. }
  split; [done|].
  split; [rewrite Hsched, <- list_fmap_compose; done|].
  split.
  { rewrite Hvids, <- (concat_slices videos d days).
    apply (concat_fmap_each to_entry
             (λ k, slice ((k - 1) * d) (k * d) videos)). }
  split; [done|].
  rewrite Hcount.
  pose proof (Nat.div_mod_eq n d) as Hdm.
  split; intros Hnd.
  - assert (1 ≤ n / d) by (apply Nat.div_le_lower_bound; lia).
    subst days. rewrite Nat.max_r by lia. nia.
  - subst days. rewrite Nat.div_small by lia. lia.
Qed.

(** C3, counterexample to the last clause as stated: with one video and a
    daily count of 2, [n] is not a multiple of [d], yet no video is left
    out: the single day holds the video. *)
Lemma C3_remainder_is_scheduled :
  let videos := [sample_video 1] in
  let d := daily_videos "2 hours a day" in
  let schedule := generate_daily_schedule videos "2 hours a day" in
  d = 2
  ∧ length videos mod d ≠ 0
  ∧ (λ kv, day_videos kv.2) <$> schedule = [[to_entry (sample_video 1)]]
  ∧ ¬ (scheduled_count schedule < length videos).
Proof. vm_compute. repeat split; try done; lia. Qed.

(** C4, evaluation at the failing input: the word tests look at the
    original text, so a capitalised ["One"] is not recognised although the
    ["hour"] test itself ignores case. *)
Lemma C4_capitalised_word_not_recognised :
  daily_videos "One hour a day" = 2
  ∧ daily_videos_case_insensitive "One hour a day" = 1
  ∧ daily_videos "one hour a day" = 1.
Proof. vm_compute. done. Qed.

(** Seven videos at two a day: three full days, one video left over. *)
Example schedule_seven_videos :
  (λ kv, (kv.1, length (day_videos kv.2)))
    <$> generate_daily_schedule (sample_video <$> seq 1 7) "I have 2 hours a day"
  = [("day_1", 2); ("day_2", 2); ("day_3", 2)].
Proof. vm_compute. reflexivity. Qed.

(** No videos: one day without videos. *)
Example schedule_no_videos :
  generate_daily_schedule [] "I have 2 hours a day"
  = [("day_1", make_day [])].
Proof. vm_compute. reflexivity. Qed.

(** Twenty hits, five of them repeating earlier URLs, give fifteen videos
    in three phases of five. *)
Example twenty_hits_five_duplicates :
  let hits := sample_video <$> (seq 1 10 ++ seq 3 5 ++ seq 11 5) in
  let unique_videos := collect_unique_videos hits in
  length hits = 20
  ∧ unique_videos = sample_video <$> seq 1 15
  ∧ length (phase_1 unique_videos) = 5
  ∧ length (phase_2 unique_videos) = 5
  ∧ length (phase_3 unique_videos) = 5.
Proof. vm_compute. split_and!; reflexivity. Qed.

(** ** Strings *)

Section Strings.
Import PyStr.

Lemma append_nil_l s : "" +:+ s = s.
Proof. reflexivity. Qed.

Lemma append_cons c s t : String c s +:+ t = String c (s +:+ t).
Proof. reflexivity. Qed.

Lemma append_nil_r s : s +:+ "" = s.
Proof. induction s as [|c s IH]; [done|by rewrite append_cons, IH]. Qed.

Lemma append_assoc s1 s2 s3 : (s1 +:+ s2) +:+ s3 = s1 +:+ (s2 +:+ s3).
Proof.
  induction s1 as [|c s1 IH]; [done|by rewrite !append_cons, IH].
Qed.

Lemma chars_append s1 s2 : chars (s1 +:+ s2) = chars s1 ++ chars s2.
Proof.
  unfold chars. induction s1 as [|c s1 IH]; [done|].
  rewrite append_cons. simpl. by rewrite IH.
Qed.

Lemma join_empty_app l1 l2 :
  join_empty (l1 ++ l2) = join_empty l1 +:+ join_empty l2.
Proof.
  unfold join_empty. induction l1 as [|s l1 IH]; simpl; [done|].
  by rewrite IH, append_assoc.
Qed.

Lemma join_empty_chars pieces piece c :
  piece ∈ pieces → c ∈ chars piece → c ∈ chars (join_empty pieces).
Proof.
  induction pieces as [|p ps IH]; intros Hp Hc; [by apply elem_of_nil in Hp|].
  cbn. rewrite chars_append, elem_of_app.
  apply elem_of_cons in Hp as [->|Hp]; [by left|right; by apply IH].
Qed.

Lemma split_space_chars s word c :
  word ∈ split_space s → c ∈ chars word → c ∈ chars s.
Proof.
  revert word. induction s as [|a s IH]; intros word Hw Hc.
  - cbn in Hw. apply list_elem_of_singleton in Hw. by subst.
  - cbn [split_space] in Hw. cbn. destruct (Ascii.eqb a " ").
    + apply elem_of_cons in Hw as [->|Hw]; [by apply elem_of_nil in Hc|].
      right. by eapply IH.
    + destruct (split_space s) as [|w ws] eqn:E.
      * apply list_elem_of_singleton in Hw. subst word. cbn in Hc.
        apply list_elem_of_singleton in Hc. subst. by left.
      * apply elem_of_cons in Hw as [->|Hw].
        -- cbn in Hc. apply elem_of_cons in Hc as [->|Hc]; [by left|].
           right. apply (IH w); [by left|done].
        -- right. apply (IH word); [by right|done].
Qed.

End Strings.

(** ** Text wrapper *)

Lemma Qltb_lt x y : Qltb x y = true ↔ (x < y)%Q.
Proof.
  unfold Qltb. rewrite negb_true_iff, <- not_true_iff_false, Qle_bool_iff.
  split; [apply Qnot_le_lt | apply Qlt_not_le].
Qed.

Lemma Qltb_ge x y : Qltb x y = false ↔ (y <= x)%Q.
Proof. unfold Qltb. by rewrite negb_false_iff, Qle_bool_iff. Qed.

Section Splitter.
Import PyStr.
Variable get_string_width : string → Q.
Variable available_width : Q.

Local Abbreviation split_fold := (foldl (split_step get_string_width available_width)).
Local Abbreviation narrow s := (get_string_width s < available_width)%Q.

Lemma split_fold_concat cs : ∀ chunks current,
  join_empty (split_fold (chunks, current) cs).1 +:+ (split_fold (chunks, current) cs).2
  = join_empty chunks +:+ current +:+ string_of_list_ascii cs.
Proof.
  induction cs as [|c cs IH]; intros chunks current.
  - cbn. by rewrite append_nil_r.
  - cbn [foldl]. unfold split_step at 2 4.
    destruct (Qltb _ _); rewrite IH.
    + by rewrite append_assoc.
    + rewrite join_empty_app. cbn [join_empty foldr].
      by rewrite append_nil_r, append_assoc.
Qed.

Lemma split_token_concat token :
  join_empty (_split_token_to_fit get_string_width token available_width) = token.
Proof.
  unfold _split_token_to_fit.
  pose proof (split_fold_concat (chars token) [] "") as H.
  destruct (split_fold ([], "") (chars token)) as [chunks current].
  cbn in H. unfold chars in H. rewrite string_of_list_ascii_of_string in H.
  destruct current.
  - by rewrite append_nil_r in H.
  - rewrite join_empty_app. cbn. by rewrite append_nil_r.
Qed.

Lemma split_fold_narrow cs : ∀ chunks current,
  Forall (λ c, narrow (of_char c)) cs →
  Forall (λ chunk, narrow chunk) chunks →
  current = "" ∨ narrow current →
  Forall (λ chunk, narrow chunk) (split_fold (chunks, current) cs).1
  ∧ ((split_fold (chunks, current) cs).2 = ""
     ∨ narrow ((split_fold (chunks, current) cs).2)).
Proof.
  induction cs as [|c cs IH]; intros chunks current Hcs Hchunks Hcur; [done|].
  apply Forall_cons in Hcs as [Hc Hcs].
  cbn [foldl]. unfold split_step at 2 4 6.
  destruct (Qltb _ _) eqn:Hfit.
  - apply IH; [done|done|]. right. by apply Qltb_lt.
  - apply IH; [done| |by right].
    apply Forall_app. split; [done|]. apply Forall_singleton.
    destruct Hcur as [->|Hcur]; [|done].
    cbn in Hfit. apply Qltb_ge in Hfit. by apply Qle_not_lt in Hfit.
Qed.

Lemma split_token_narrow token :
  Forall (λ c, narrow (of_char c)) (chars token) →
  Forall (λ chunk, narrow chunk)
         (_split_token_to_fit get_string_width token available_width).
Proof.
  intros Hcs. unfold _split_token_to_fit.
  destruct (split_fold_narrow (chars token) [] "" Hcs) as [H1 H2];
    [constructor|by left|].
  destruct (split_fold ([], "") (chars token)) as [chunks current].
  cbn in H1, H2. destruct current; [done|].
  apply Forall_app. split; [done|]. apply Forall_singleton.
  by destruct H2.
Qed.

End Splitter.

Section Renderer.
Import PyStr.
Variable get_string_width : string → Q.
Variable available_width : Q.

Local Abbreviation step := (render_step get_string_width available_width).
Local Abbreviation split token := (_split_token_to_fit get_string_width token available_width).
Local Abbreviation expand := (expand_token get_string_width available_width).
Local Abbreviation narrow s := (get_string_width s < available_width)%Q.

(** The lines emitted by a step do not depend on what was emitted before. *)
Lemma render_step_emitted emitted current word :
  step (emitted, current) word
  = (emitted ++ (step ([], current) word).1, (step ([], current) word).2).
Proof.
  unfold render_step. repeat case_match; cbn [fst snd app]; try done.
  by rewrite app_nil_r.
Qed.

Lemma render_fold_emitted words : ∀ emitted current,
  foldl step (emitted, current) words
  = (emitted ++ (foldl step ([], current) words).1,
     (foldl step ([], current) words).2).
Proof.
  induction words as [|w ws IH]; intros emitted current.
  - cbn. by rewrite app_nil_r.
  - cbn [foldl]. rewrite render_step_emitted.
    destruct (step ([], current) w) as [out cur'] eqn:E. cbn [fst snd].
    rewrite IH, (IH out). cbn [fst snd]. by rewrite (assoc_L (++)).
Qed.

(** *** Widths of the emitted lines *)

Section Widths.
Variable tokens : list string.
Hypothesis empty_narrow : narrow "".

Local Abbreviation line_ok := (line_ok get_string_width available_width tokens).

Lemma render_step_ok emitted current word :
  word ∈ tokens →
  Forall (λ c, narrow (of_char c)) (chars word) →
  Forall line_ok emitted →
  current = [] ∨ line_ok (join_space current) →
  Forall line_ok (step (emitted, current) word).1
  ∧ ((step (emitted, current) word).2 = []
     ∨ line_ok (join_space (step (emitted, current) word).2)).
Proof.
  intros Hword Hchars Hem Hcur. unfold render_step.
  destruct (Qltb available_width _) eqn:Hlong; cbn [fst snd].
  - split; [|by left].
    rewrite !Forall_app. split_and!; [done| |].
    + destruct current; [constructor|]. apply Forall_singleton.
      by destruct Hcur.
    + eapply Forall_impl; [by apply split_token_narrow|].
      intros chunk Hchunk. by left.
  - destruct (Qltb (get_string_width _) _) eqn:Hfit; cbn [fst snd].
    + split; [done|]. right. left. by apply Qltb_lt.
    + split.
      * apply Forall_app. split; [done|]. apply Forall_singleton.
        destruct Hcur as [->|Hcur]; [by left|done].
      * right. change (join_space [word]) with word.
        apply Qltb_ge in Hlong.
        destruct (Qlt_le_dec (get_string_width word) available_width)
          as [Hlt|Hge]; [by left|].
        right. split; [by apply Qle_antisym|done].
Qed.

Lemma render_fold_ok words : ∀ emitted current,
  Forall (λ word, word ∈ tokens) words →
  Forall (λ word, Forall (λ c, narrow (of_char c)) (chars word)) words →
  Forall line_ok emitted →
  current = [] ∨ line_ok (join_space current) →
  Forall line_ok (foldl step (emitted, current) words).1
  ∧ ((foldl step (emitted, current) words).2 = []
     ∨ line_ok (join_space (foldl step (emitted, current) words).2)).
Proof.
  induction words as [|w ws IH]; intros emitted current Hin Hch Hem Hcur;
    [done|].
  apply Forall_cons in Hin as [Hw Hin]. apply Forall_cons in Hch as [Hc Hch].
  cbn [foldl].
  destruct (render_step_ok emitted current w Hw Hc Hem Hcur) as [H1 H2].
  destruct (step (emitted, current) w) as [em' cur']. by apply IH.
Qed.
End Widths.

Lemma render_lines_ok text :
  narrow "" →
  (∀ c, c ∈ chars text → narrow (of_char c)) →
  Forall (line_ok get_string_width available_width (split_space text))
         (_render_wrapped_text get_string_width text available_width).
Proof.
  intros Hempty Hchars. unfold _render_wrapped_text.
  destruct (render_fold_ok (split_space text) Hempty (split_space text) [] [])
    as [H1 H2].
  - by apply Forall_forall.
  - apply Forall_forall. intros w Hw. apply Forall_forall. intros c Hc.
    apply Hchars. by eapply split_space_chars.
  - constructor.
  - by left.
  - destruct (foldl step ([], []) (split_space text)) as [emitted current].
    cbn [fst snd] in *. apply Forall_app. split; [done|].
    destruct current; [constructor|]. apply Forall_singleton.
    by destruct H2.
Qed.

End Renderer.

(** C6, as it holds on the code. Provided the available width is greater than the measured
    width of the empty string and of every single character of the input,
    every line emitted by [_render_wrapped_text] is at most as wide as the
    available width, and strictly narrower unless the line is a single
    token of the input whose measured width is exactly the available width;
    when no token has exactly that width, every line is strictly narrower. *)
Theorem C6_lines_within_width (get_string_width : string → Q) (text : string)
    (available_width : Q) :
  (get_string_width "" < available_width)%Q →
  (∀ c, c ∈ PyStr.chars text →
        (get_string_width (PyStr.of_char c) < available_width)%Q) →
  let lines := _render_wrapped_text get_string_width text available_width in
  Forall (line_ok get_string_width available_width (PyStr.split_space text)) lines
  ∧ Forall (λ line, (get_string_width line <= available_width)%Q) lines
  ∧ ((∀ token, token ∈ PyStr.split_space text →
               ¬ (get_string_width token == available_width)%Q) →
     Forall (λ line, (get_string_width line < available_width)%Q) lines).
Proof.
  intros Hempty Hchars lines.
  pose proof (render_lines_ok get_string_width available_width text Hempty Hchars)
    as Hok.
  fold lines in Hok. split; [done|]. split.
  - eapply Forall_impl; [exact Hok|]. intros line [Hlt|[Heq _]].
    + by apply Qlt_le_weak.
    + rewrite Heq. apply Qle_refl.
  - intros Hne. eapply Forall_impl; [exact Hok|]. intros line [Hlt|[Heq Hin]].
    + done.
    + by destruct (Hne line Hin).
Qed.

(** C6, counterexample to the strict bound: with one unit per character and
    an available width of 3, wider than any single character, the token
    ["abc"] is neither split nor accepted on the empty line; an empty line
    is emitted and then ["abc"], whose width is not below 3. *)
Lemma C6_full_width_token_not_narrower :
  Forall (λ c, (char_count (PyStr.of_char c) < 3)%Q) (PyStr.chars "abc")
  ∧ _render_wrapped_text char_count "abc" 3 = [""; "abc"]
  ∧ ¬ (char_count "abc" < 3)%Q.
Proof.
  split; [|split].
  - repeat constructor.
  - vm_compute. reflexivity.
  - vm_compute. discriminate.
Qed.

Section SplitJoin.
Import PyStr.

Lemma chars_cons a s : chars (String a s) = a :: chars s.
Proof. reflexivity. Qed.

Lemma space_free_cons a s :
  space_free (String a s) ↔ a ≠ " "%char ∧ space_free s.
Proof.
  unfold space_free. rewrite chars_cons, not_elem_of_cons. naive_solver.
Qed.

Lemma space_free_empty : space_free "".
Proof. unfold space_free. cbn. apply not_elem_of_nil. Qed.

Lemma split_space_cons_space s :
  split_space (String " " s) = "" :: split_space s.
Proof. reflexivity. Qed.

Lemma split_space_cons_other a s :
  a ≠ " "%char →
  split_space (String a s)
  = match split_space s with
    | [] => [String a ""]
    | w :: ws => String a w :: ws
    end.
Proof.
  intros Ha. cbn [split_space].
  by rewrite (proj2 (Ascii.eqb_neq a " ") Ha).
Qed.

Lemma split_space_space_free s : Forall space_free (split_space s).
Proof.
  induction s as [|a s IH].
  - apply Forall_singleton, space_free_empty.
  - destruct (decide (a = " "%char)) as [->|Ha].
    + rewrite split_space_cons_space. constructor; [apply space_free_empty|done].
    + rewrite split_space_cons_other by done.
      destruct (split_space s) as [|w ws].
      * apply Forall_singleton, space_free_cons. split; [done|apply space_free_empty].
      * apply Forall_cons in IH as [Hw Hws]. constructor; [|done].
        by apply space_free_cons.
Qed.

Lemma split_space_token w : space_free w → split_space w = [w].
Proof.
  induction w as [|a w IH]; intros Hw; [done|].
  apply space_free_cons in Hw as [Ha Hw].
  by rewrite split_space_cons_other, IH.
Qed.

Lemma split_space_token_then_space w s :
  space_free w → split_space (w +:+ String " " s) = w :: split_space s.
Proof.
  induction w as [|a w IH]; intros Hw.
  - by rewrite append_nil_l, split_space_cons_space.
  - apply space_free_cons in Hw as [Ha Hw].
    by rewrite append_cons, split_space_cons_other, IH.
Qed.

Lemma join_space_cons w w' ws :
  join_space (w :: w' :: ws) = w +:+ String " " (join_space (w' :: ws)).
Proof. reflexivity. Qed.

(** Splitting a space-joined, non-empty list of space-free tokens gives the
    tokens back. *)
Lemma split_join_space ws :
  ws ≠ [] → Forall space_free ws → split_space (join_space ws) = ws.
Proof.
  induction ws as [|w ws IH]; intros Hne Hws; [done|].
  apply Forall_cons in Hws as [Hw Hws].
  destruct ws as [|w' ws].
  - by apply split_space_token.
  - rewrite join_space_cons, split_space_token_then_space by done.
    f_equal. by apply IH.
Qed.

Lemma split_space_not_nil s : split_space s ≠ [].
Proof.
  destruct s as [|a s]; [done|]. cbn [split_space].
  destruct (Ascii.eqb a " "); [done|]. by destruct (split_space s).
Qed.

(** Joining the tokens of a text with single spaces gives the text back. *)
Lemma join_split_space s : join_space (split_space s) = s.
Proof.
  induction s as [|a s IH]; [done|].
  pose proof (split_space_not_nil s) as Hne.
  destruct (decide (a = " "%char)) as [->|Ha].
  - rewrite split_space_cons_space.
    destruct (split_space s) as [|w ws]; [done|].
    by rewrite join_space_cons, IH.
  - rewrite split_space_cons_other by done.
    destruct (split_space s) as [|w ws]; [done|].
    rewrite <- IH. destruct ws as [|w' ws]; [done|].
    by rewrite !join_space_cons, append_cons.
Qed.

Lemma non_empty_split_join ws :
  Forall space_free ws → non_empty (split_space (join_space ws)) = non_empty ws.
Proof.
  intros Hws. destruct ws as [|w ws]; [done|].
  by rewrite split_join_space.
Qed.

Lemma elem_of_concat {A} (x : A) (ls : list (list A)) :
  x ∈ concat ls ↔ ∃ l, x ∈ l ∧ l ∈ ls.
Proof.
  induction ls as [|l ls IH]; cbn [concat].
  - split; [by intros ?%elem_of_nil|]. by intros (l & _ & ?%elem_of_nil).
  - rewrite elem_of_app, IH. split.
    + intros [Hx|(l' & Hx & Hl')]; [exists l|exists l']; split; try done.
      * by left.
      * by right.
    + intros (l' & Hx & [->|Hl']%elem_of_cons); [by left|right; eauto].
Qed.

Lemma non_empty_app l1 l2 : non_empty (l1 ++ l2) = non_empty l1 ++ non_empty l2.
Proof. apply filter_app. Qed.

End SplitJoin.

Section TokensSpaceFree.
Import PyStr.
Variable get_string_width : string → Q.
Variable available_width : Q.

Local Abbreviation split token := (_split_token_to_fit get_string_width token available_width).
Local Abbreviation expand := (expand_token get_string_width available_width).

Lemma split_token_space_free token :
  space_free token → Forall space_free (split token).
Proof.
  intros Htok. apply Forall_forall. intros chunk Hchunk Hsp.
  apply Htok. rewrite <- (split_token_concat get_string_width available_width token).
  by eapply join_empty_chars.
Qed.

Lemma expand_token_space_free token :
  space_free token → Forall space_free (expand token).
Proof.
  intros Htok. unfold expand_token. case_match.
  - by apply split_token_space_free.
  - by apply Forall_singleton.
Qed.

Lemma expand_tokens_none_wide (tokens : list string) :
  (∀ token, token ∈ tokens →
            ¬ (available_width < get_string_width token)%Q) →
  concat (expand <$> tokens) = tokens.
Proof.
  induction tokens as [|t ts IH]; intros Hnone; [done|].
  cbn [fmap list_fmap concat]. rewrite IH.
  - unfold expand_token. destruct (Qltb _ _) eqn:Hlong; [|done].
    apply Qltb_lt in Hlong. destruct (Hnone t); [by left|done].
  - intros token Hin. apply Hnone. by right.
Qed.

Lemma join_space_singleton chunk : join_space [chunk] = chunk.
Proof. reflexivity. Qed.

Lemma line_tokens_app l1 l2 :
  line_tokens (l1 ++ l2) = line_tokens l1 ++ line_tokens l2.
Proof. unfold line_tokens. by rewrite fmap_app, concat_app. Qed.

(** Lines that are single space-free pieces are their own tokens. *)
Lemma line_tokens_pieces (pieces : list string) :
  Forall space_free pieces → line_tokens pieces = pieces.
Proof.
  induction 1 as [|piece pieces Hp _ IH]; [done|].
  unfold line_tokens in *. cbn [fmap list_fmap concat].
  by rewrite split_space_token, IH.
Qed.

(** The line of a non-empty list of accumulated tokens has these tokens;
    the line of the empty list has one empty token. *)
Lemma line_tokens_joined (current : list string) :
  Forall space_free current →
  line_tokens [join_space current] = match current with [] => [""] | _ => current end.
Proof.
  intros Hsf. unfold line_tokens. cbn [fmap list_fmap concat].
  rewrite app_nil_r. destruct current as [|w ws]; [done|].
  by apply split_join_space.
Qed.

Lemma line_tokens_flush (current : list string) :
  Forall space_free current →
  line_tokens (flush current) = current.
Proof.
  intros Hsf. destruct current as [|w ws]; [done|].
  by apply (line_tokens_joined (w :: ws)).
Qed.

Local Abbreviation step := (render_step get_string_width available_width).
Local Abbreviation expected := (expected_line_tokens get_string_width available_width).

(** The tokens of the lines emitted from a state of the loop on: those of
    the lines emitted so far, the accumulated tokens, and what the
    remaining words give. *)
Lemma line_tokens_fold words : ∀ emitted current,
  Forall space_free current → Forall space_free words →
  line_tokens ((foldl step (emitted, current) words).1
               ++ flush (foldl step (emitted, current) words).2)
  = line_tokens emitted ++ current
    ++ expected (bool_decide (current = [])) words.
Proof.
  induction words as [|w ws IH]; intros emitted current Hcur Hwords.
  - cbn [foldl fst snd expected_line_tokens].
    by rewrite line_tokens_app, line_tokens_flush, app_nil_r.
  - apply Forall_cons in Hwords as [Hw Hws].
    assert (Hw1 : Forall space_free [w]) by by apply Forall_singleton.
    assert (Hcw : Forall space_free (current ++ [w]))
      by (apply Forall_app; by split).
    cbn [foldl expected_line_tokens]. unfold render_step at 2 4.
    destruct (Qltb available_width (get_string_width w)) eqn:Hwide.
    + rewrite IH by done.
      rewrite !line_tokens_app, line_tokens_flush by done.
      rewrite (line_tokens_pieces (split w)) by by apply split_token_space_free.
      rewrite bool_decide_eq_true_2 by done.
      cbn [app]. by rewrite <- !(assoc_L (++)).
    + destruct (Qltb (get_string_width (join_space (current ++ [w])))
                     available_width) eqn:Hfit.
      * rewrite IH by done.
        rewrite bool_decide_eq_false_2 by by destruct current.
        destruct current as [|c cs].
        -- cbn [app] in Hfit. rewrite join_space_singleton in Hfit.
           rewrite Hfit. by rewrite bool_decide_eq_true_2.
        -- rewrite bool_decide_eq_false_2 by done. cbn [andb].
           by rewrite <- !(assoc_L (++)).
      * rewrite IH by done.
        rewrite line_tokens_app, line_tokens_joined by done.
        rewrite (bool_decide_eq_false_2 ([w] = [])) by done.
        destruct current as [|c cs].
        -- cbn [app] in Hfit. rewrite join_space_singleton in Hfit.
           rewrite Hfit. by rewrite bool_decide_eq_true_2, <- !(assoc_L (++)).
        -- rewrite bool_decide_eq_false_2 by done. cbn [andb].
           by rewrite <- !(assoc_L (++)).
Qed.

Lemma render_line_tokens text :
  line_tokens (_render_wrapped_text get_string_width text available_width)
  = expected true (split_space text).
Proof.
  unfold _render_wrapped_text.
  pose proof (line_tokens_fold (split_space text) [] []
                (Forall_nil_2 _) (split_space_space_free text)) as H.
  destruct (foldl step ([], []) (split_space text)) as [emitted current].
  cbn [fst snd] in H. rewrite H. reflexivity.
Qed.

(** The empty tokens aside, the expected tokens are the input tokens with
    every over-wide token replaced by its chunks. *)
Lemma expected_non_empty tokens : ∀ fresh,
  non_empty (expected fresh tokens) = non_empty (concat (expand <$> tokens)).
Proof.
  induction tokens as [|t ts IH]; intros fresh; [done|].
  cbn [expected_line_tokens fmap list_fmap concat].
  assert (Hexp : expand t = if Qltb available_width (get_string_width t)
                            then split t else [t]) by done.
  rewrite Hexp.
  destruct (Qltb available_width (get_string_width t)).
  - by rewrite !non_empty_app, IH.
  - destruct (fresh && negb (Qltb (get_string_width t) available_width)).
    + change ("" :: t :: expected false ts)
        with ([""] ++ [t] ++ expected false ts).
      by rewrite !non_empty_app, IH.
    + change (t :: expected false ts) with ([t] ++ expected false ts).
      by rewrite !non_empty_app, IH.
Qed.

(** Without a token exactly as wide as the available width no empty token
    is added. *)
Lemma expected_none_exact tokens : ∀ fresh,
  (∀ token, token ∈ tokens → ¬ (get_string_width token == available_width)%Q) →
  expected fresh tokens = concat (expand <$> tokens).
Proof.
  induction tokens as [|t ts IH]; intros fresh Hnone; [done|].
  cbn [expected_line_tokens fmap list_fmap concat].
  assert (Hexp : expand t = if Qltb available_width (get_string_width t)
                            then split t else [t]) by done.
  rewrite Hexp.
  assert (Hts : ∀ token, token ∈ ts →
                  ¬ (get_string_width token == available_width)%Q)
    by (intros token Hin; apply Hnone; by right).
  destruct (Qltb available_width (get_string_width t)) eqn:Hwide.
  - by rewrite IH.
  - destruct (Qltb (get_string_width t) available_width) eqn:Hnarrow.
    + rewrite andb_false_r. by rewrite IH.
    + apply Qltb_ge in Hwide, Hnarrow.
      destruct (Hnone t); [by left|]. by apply Qle_antisym.
Qed.

End TokensSpaceFree.



Section FirstCharacterTooWide.
Import PyStr.
Variable get_string_width : string → Q.
Variable available_width : Q.

Local Abbreviation split_fold := (foldl (split_step get_string_width available_width)).
Local Abbreviation split token := (_split_token_to_fit get_string_width token available_width).
Local Abbreviation step := (render_step get_string_width available_width).

(** Once the current chunk is non-empty, everything the loop adds to
    [chunks], followed by the last chunk, starts with an extension of the
    current chunk. *)
Lemma split_fold_extends cs : ∀ chunks current,
  current ≠ "" →
  ∃ more last suffix tail,
    split_fold (chunks, current) cs = (chunks ++ more, last)
    ∧ last ≠ ""
    ∧ more ++ [last] = (current +:+ suffix) :: tail.
Proof.
  induction cs as [|c cs IH]; intros chunks current Hne.
  - exists [], current, "", []. split_and!; [by rewrite app_nil_r|done|].
    by rewrite append_nil_r.
  - cbn [foldl]. unfold split_step at 2.
    destruct (Qltb _ _).
    + destruct (IH chunks (current +:+ of_char c)) as (more & last & sfx & tail & H1 & H2 & H3).
      { by destruct current. }
      exists more, last, (of_char c +:+ sfx), tail. split_and!; [done|done|].
      by rewrite H3, append_assoc.
    + destruct (IH (chunks ++ [current]) (of_char c)) as (more & last & sfx & tail & H1 & H2 & H3);
        [done|].
      exists (current :: more), last, "", (more ++ [last]). split_and!; [|done|].
      * by rewrite H1, <- (assoc_L (++)).
      * by rewrite append_nil_r.
Qed.

Lemma split_first_char_wide c rest :
  (available_width <= get_string_width (of_char c))%Q →
  ∃ suffix more, split (String c rest) = "" :: String c suffix :: more.
Proof.
  intros Hwide. unfold _split_token_to_fit. rewrite chars_cons. cbn [foldl].
  unfold split_step at 2. rewrite append_nil_l.
  rewrite (proj2 (Qltb_ge _ _) Hwide). cbn [app].
  destruct (split_fold_extends (chars rest) [""] (of_char c))
    as (more & last & sfx & tail & H1 & H2 & H3); [done|].
  rewrite H1. exists sfx, tail.
  destruct last; [done|].
  by rewrite <- (assoc_L (++)), H3.
Qed.

Lemma render_over_wide_token text token :
  (available_width < get_string_width token)%Q →
  token ∈ split_space text →
  ∃ before after,
    _render_wrapped_text get_string_width text available_width
    = before ++ split token ++ after.
Proof.
  intros Hlong Hin. unfold _render_wrapped_text.
  apply list_elem_of_split in Hin as (ws1 & ws2 & ->).
  rewrite foldl_app. cbn [foldl].
  destruct (foldl step ([], []) ws1) as [emitted current].
  unfold render_step at 2. rewrite (proj2 (Qltb_lt _ _) Hlong).
  rewrite render_fold_emitted.
  destruct (foldl step ([], []) ws2) as [out last].
  cbn [fst snd].
  exists (emitted ++ flush current), (out ++ flush last).
  by rewrite <- !(assoc_L (++)).
Qed.

End FirstCharacterTooWide.


(** ** Notes composer *)

Lemma generate_learning_notes_ai env generator topic background commitment
    playlist_data text :
  truthy (getenv env "GEMINI_API_KEY") = true →
  generator (base_context topic background commitment) = Ok text →
  generate_learning_notes env generator topic background commitment playlist_data
  = text.
Proof.
  intros Hkey Hgen. unfold generate_learning_notes, build_ai_client.
  by rewrite Hkey, Hgen.
Qed.

Lemma generate_learning_notes_fallback env generator topic background commitment
    data :
  truthy (getenv env "GEMINI_API_KEY") = false
  ∨ (∃ e, generator (base_context topic background commitment) = Raise e) →
  generate_learning_notes env generator topic background commitment (Some data)
  = fallback_notes topic background commitment +:+ curriculum_section data.
Proof.
  unfold generate_learning_notes, build_ai_client.
  intros [Hkey|[e Hgen]].
  - by rewrite Hkey.
  - destruct (truthy _); [by rewrite Hgen|done].
Qed.

(** C5, evaluation at the failing input: with an API key set and a
    generator that answers, the generator's text is returned as it is, for
    every playlist; for the playlist assembled from the sample search the
    returned body does not end with the curriculum section, while without
    a key, or with a failing generator, it does. *)
Lemma C5_ai_narrative_returned_without_section :
  (∀ topic background commitment playlist_data,
     generate_learning_notes ai_env sample_generator topic background commitment
       playlist_data = "AI narrative")
  ∧ match create_learning_playlist sample_search "Python" "absolute beginner"
            "2 hours a day" with
    | Ok data =>
        ends_with (curriculum_section data)
          (generate_learning_notes ai_env sample_generator "Python"
             "absolute beginner" "2 hours a day" (Some data)) = false
        ∧ ends_with (curriculum_section data)
            (generate_learning_notes ∅ sample_generator "Python"
               "absolute beginner" "2 hours a day" (Some data)) = true
        ∧ ends_with (curriculum_section data)
            (generate_learning_notes ai_env failing_generator "Python"
               "absolute beginner" "2 hours a day" (Some data)) = true
    | Raise _ => False
    end.
Proof.
  split.
  - intros. by apply generate_learning_notes_ai.
  - vm_compute. done.
Qed.

(** ** Collaborator failures *)

Lemma search_youtube_videos_returns provider query max_results :
  ∃ videos, search_youtube_videos provider query max_results = Ok videos.
Proof.
  unfold search_youtube_videos.
  destruct (provider query max_results) as [[entries|]|e]; cbn; eauto.
Qed.

Lemma search_youtube_videos_failure provider query max_results e :
  provider query max_results = Raise e →
  search_youtube_videos provider query max_results = Ok [].
Proof. intros H. unfold search_youtube_videos. by rewrite H. Qed.

(** A message is built exactly when the library accepts the five calls. *)
Lemma build_message_ok email sender to_address subject body_text
    attachment_bytes attachment_filename msg :
  build_message email sender to_address subject body_text attachment_bytes
    attachment_filename = Ok msg →
  msg = mkMessage sender to_address subject body_text attachment_bytes
          attachment_filename.
Proof.
  unfold build_message.
  destruct (email (SetHeader "From" sender)) as [[]|?]; cbn; [|done].
  destruct (email (SetHeader "To" to_address)) as [[]|?]; cbn; [|done].
  destruct (email (SetHeader "Subject" subject)) as [[]|?]; cbn; [|done].
  destruct (email (SetContent body_text)) as [[]|?]; cbn; [|done].
  destruct (email (AddAttachment _ _ _ _)) as [[]|?]; cbn; [|done].
  congruence.
Qed.

Lemma send_email_returns env email server to_address subject body_text
    attachment_bytes attachment_filename integers :
  smtp_integers env = Ok integers →
  (∀ c, email c = Ok ()) →
  ∃ sent calls,
    send_email_with_attachment env email server to_address subject body_text
      attachment_bytes attachment_filename = (Ok sent, calls).
Proof.
  intros Hint Hemail. unfold send_email_with_attachment. rewrite Hint.
  destruct integers as [[port timeout] debug].
  destruct (get_missing_smtp_env_keys env); [|by eauto].
  unfold build_message. rewrite !Hemail. cbn.
  destruct (smtp_session _ _ _ _ _ _ _ _ _ _) as [[[]|e] calls]; eauto.
Qed.

(** C8, evaluation at the failing input: the search wrapper always returns
    a list, the empty one when the provider raises, and the mail routine
    returns [False] when the transport refuses the login; but with all
    required settings present and [SMTP_PORT] set to ["abc"] the mail
    routine raises [ValueError] before its [try] block is entered. *)
Lemma C8_malformed_port_raises :
  search_youtube_videos failing_search "Python basics explained" 3 = Ok []
  ∧ (send_email_with_attachment smtp_env accepting_email refusing_server
       "user@example.org" "Subject" "Body" [] "path.pdf").1 = Ok false
  ∧ get_missing_smtp_env_keys (<["SMTP_PORT" := "abc"]> smtp_env) = []
  ∧ send_email_with_attachment (<["SMTP_PORT" := "abc"]> smtp_env)
      accepting_email accepting_server "user@example.org" "Subject" "Body" []
      "path.pdf"
    = (Raise (ValueError "invalid literal for int() with base 10: 'abc'"), []).
Proof. vm_compute. done. Qed.

(** ** The assembled playlist *)

Lemma search_all_returns provider queries : ∀ all_videos,
  ∃ found, search_all provider queries all_videos = Ok (all_videos ++ found).
Proof.
  induction queries as [|query rest IH]; intros all_videos.
  - exists []. by rewrite app_nil_r.
  - cbn [search_all].
    destruct (search_youtube_videos_returns provider query 3) as [videos ->].
    cbn. destruct (IH (all_videos ++ videos)) as [found ->].
    exists (videos ++ found). by rewrite (assoc_L (++)).
Qed.

(** [create_learning_playlist] always returns a playlist; its phases are
    the three slices of one list of at most 15 videos with pairwise
    distinct URLs, and [total_videos] is the length of that list. *)
Lemma create_learning_playlist_returns provider topic background commitment :
  ∃ playlist unique_videos,
    create_learning_playlist provider topic background commitment = Ok playlist
    ∧ length unique_videos ≤ 15
    ∧ NoDup (url <$> unique_videos)
    ∧ pl_total_videos playlist = length unique_videos
    ∧ phase_videos (pl_phase_1 playlist) = slice 0 5 unique_videos
    ∧ phase_videos (pl_phase_2 playlist) = slice 5 10 unique_videos
    ∧ phase_videos (pl_phase_3 playlist) = slice 10 15 unique_videos
    ∧ pl_daily_schedule playlist
      = generate_daily_schedule unique_videos commitment.
Proof.
  unfold create_learning_playlist.
  destruct (search_all_returns provider
              (search_queries_for (classify background) topic) [])
    as [found ->].
  cbn. eexists _, (collect_unique_videos found).
  split; [reflexivity|]. cbn.
  assert (Hlen : length (collect_unique_videos found) ≤ 15).
  { rewrite collect_unique_videos_spec, length_take. lia. }
  assert (Hnd : NoDup (url <$> collect_unique_videos found)).
  { rewrite collect_unique_videos_spec, fmap_take.
    eapply sublist_NoDup; [|apply sublist_take].
    rewrite first_occurrences_after_nil. apply first_occurrences_after_NoDup. }
  split_and!; try done.
  - apply phase_1_slice.
  - apply phase_2_slice.
  - by apply phase_3_slice.
Qed.

(** ** Missing mail settings *)

Lemma truthy_false v : truthy v = false ↔ v = None ∨ v = Some "".
Proof. destruct v as [[|c s]|]; cbn; naive_solver. Qed.

Lemma get_missing_smtp_env_keys_spec env key :
  key ∈ get_missing_smtp_env_keys env
  ↔ key ∈ required_keys ∧ (env !! key = None ∨ env !! key = Some "").
Proof.
  unfold get_missing_smtp_env_keys. rewrite list_elem_of_filter.
  unfold getenv. rewrite truthy_false. tauto.
Qed.

(** C9, as it holds on the code. Whenever a required SMTP setting is absent,
    [get_missing_smtp_env_keys] returns, in the order EMAIL_FROM, SMTP_HOST,
    SMTP_USERNAME, SMTP_PASSWORD, exactly the required keys that are absent
    or set to the empty string, the list is not empty, and, provided the
    integer settings SMTP_PORT, SMTP_TIMEOUT and SMTP_DEBUG are well formed,
    [send_email_with_attachment] returns [False] without any transport
    call. *)
Theorem C9_missing_settings_reported (env : gmap string string)
    (email : EmailLibrary)
    (server : SmtpServer) (to_address subject body_text : string)
    (attachment_bytes : list Byte.byte) (attachment_filename : string) :
  (∃ key, key ∈ required_keys ∧ env !! key = None) →
  get_missing_smtp_env_keys env
  = filter (λ key, env !! key = None ∨ env !! key = Some "") required_keys
  ∧ get_missing_smtp_env_keys env ≠ []
  ∧ (∀ key, key ∈ required_keys → env !! key = None →
            key ∈ get_missing_smtp_env_keys env)
  ∧ ((∃ integers, smtp_integers env = Ok integers) →
     send_email_with_attachment env email server to_address subject body_text
       attachment_bytes attachment_filename = (Ok false, [])).
Proof.
  intros (key & Hreq & Habsent).
  assert (Hin : key ∈ get_missing_smtp_env_keys env).
  { apply get_missing_smtp_env_keys_spec. auto. }
  split_and!.
  - unfold get_missing_smtp_env_keys. apply list_filter_iff.
    intros k. unfold getenv. apply truthy_false.
  - intros Hnil. rewrite Hnil in Hin. by apply elem_of_nil in Hin.
  - intros k Hk Hnone. apply get_missing_smtp_env_keys_spec. auto.
  - intros [[[port timeout] debug] Hint].
    unfold send_email_with_attachment. rewrite Hint.
    destruct (get_missing_smtp_env_keys env); [by apply elem_of_nil in Hin|done].
Qed.

(** C9, counterexample to "exactly the absent keys": with EMAIL_FROM absent
    and SMTP_HOST set to the empty string, both are reported, although only
    EMAIL_FROM is absent from the environment. *)
Lemma C9_empty_setting_reported_missing :
  let env := <["SMTP_HOST" := ""]> (delete "EMAIL_FROM" smtp_env) in
  env !! "EMAIL_FROM" = None
  ∧ env !! "SMTP_HOST" = Some ""
  ∧ absent_keys env = ["EMAIL_FROM"]
  ∧ get_missing_smtp_env_keys env = ["EMAIL_FROM"; "SMTP_HOST"]
  ∧ get_missing_smtp_env_keys env ≠ absent_keys env.
Proof. vm_compute. split_and!; done. Qed.

(** * Instances at concrete inputs *)

(** C1 at a list with an interleaved duplicate: dropping the later
    duplicate of an admitted URL leaves the result unchanged. *)
Lemma C1_dedup_witness :
  collect_unique_videos
    [sample_video 1; sample_video 2; sample_video 1; sample_video 3]
  = collect_unique_videos [sample_video 1; sample_video 2; sample_video 3].
Proof.
  destruct (C1_dedup_keeps_first_occurrences
              [sample_video 1; sample_video 2; sample_video 1; sample_video 3])
    as (_ & _ & _ & _ & _ & _ & _ & H).
  apply (H [sample_video 1; sample_video 2] (sample_video 1) [sample_video 3]).
  - reflexivity.
  - vm_compute. apply list_elem_of_here.
Defined.

(** C2 at twelve videos. *)
Lemma C2_phases_witness :
  let videos := sample_video <$> seq 1 12 in
  length videos ≤ 15
  ∧ phase_1 videos ++ phase_2 videos ++ phase_3 videos = videos.
Proof.
  intros videos. split.
  - vm_compute. lia.
  - apply (C2_phases_partition videos). vm_compute. lia.
Defined.

(** C3 at seven videos and two videos a day: six videos are scheduled. *)
Lemma C3_schedule_witness :
  let videos := sample_video <$> seq 1 7 in
  scheduled_count (generate_daily_schedule videos "2 hours a day")
  = length videos - length videos mod daily_videos "2 hours a day".
Proof.
  intros videos.
  destruct (C3_schedule_shape videos "2 hours a day")
    as (_ & _ & _ & _ & _ & _ & _ & _ & H & _).
  apply H. vm_compute. lia.
Defined.

(** C6 at one unit per character and an available width of 4. *)
Lemma C6_lines_witness :
  (char_count "" < 4)%Q
  ∧ Forall (λ line, (char_count line <= 4)%Q)
           (_render_wrapped_text char_count "ab cd abcdef" 4).
Proof.
  split; [reflexivity|].
  apply (C6_lines_within_width char_count "ab cd abcdef" 4).
  - reflexivity.
  - intros c _. reflexivity.
Defined.

(** C9 with EMAIL_FROM removed from an otherwise complete environment. *)
Lemma C9_missing_settings_witness :
  let env := delete "EMAIL_FROM" smtp_env in
  env !! "EMAIL_FROM" = None
  ∧ send_email_with_attachment env accepting_email accepting_server
      "user@example.org" "Subject" "Body" [] "path.pdf" = (Ok false, []).
Proof.
  intros env. split; [reflexivity|].
  apply (C9_missing_settings_reported env accepting_email accepting_server
           "user@example.org"
           "Subject" "Body" [] "path.pdf").
  - exists "EMAIL_FROM". split; [apply list_elem_of_here|reflexivity].
  - eexists. vm_compute. reflexivity.
Defined.


(** * Further properties *)

(** ** Video search *)

Lemma substring_length_le n s : String.length (String.substring 0 n s) ≤ n.
Proof.
  revert s. induction n as [|n IH]; intros [|c s]; cbn; try lia.
  specialize (IH s). lia.
Qed.

Lemma string_length_append s t :
  String.length (s +:+ t) = String.length s + String.length t.
Proof. induction s as [|c s IH]; [done|]. rewrite append_cons. cbn. lia. Qed.

Lemma video_info_description_length video :
  String.length (description (video_info video)) ≤ 203.
Proof.
  unfold video_info. cbn. destruct (raw_description_snippet video); cbn; [lia|].
  rewrite string_length_append. cbn.
  pose proof (substring_length_le 200 (default "" o)). lia.
Qed.

(** X1. [search_youtube_videos] always returns a list.  When the provider
    answers with entries the list has one video per entry, in order, whose
    URL is the entry's link (empty when the link is missing); every
    description is at most 203 characters long, empty exactly for entries
    without a description snippet; when the provider answers without
    entries or raises, the list is empty.  (Lengths count the characters of an
    ASCII text.) *)
Theorem X1_search_youtube_videos_shape (provider : SearchProvider)
    (query : string) (max_results : nat) :
  ∃ videos,
    search_youtube_videos provider query max_results = Ok videos
    ∧ Forall (λ v, String.length (description v) ≤ 203) videos
    ∧ (∀ entries, provider query max_results = Ok (Some entries) →
         length videos = length entries
         ∧ url <$> videos = (λ e, default "" (raw_link e)) <$> entries
         ∧ title <$> videos = (λ e, default "" (raw_title e)) <$> entries
         ∧ Forall2 (λ e v, raw_description_snippet e = [] ↔ description v = "")
                   entries videos)
    ∧ (provider query max_results = Ok None → videos = [])
    ∧ (∀ e, provider query max_results = Raise e → videos = []).
Proof.
  unfold search_youtube_videos.
  destruct (provider query max_results) as [[entries|]|e]; cbn.
  - exists (video_info <$> entries). split_and!; try done.
    + apply Forall_fmap, Forall_forall. intros v _.
      apply video_info_description_length.
    + intros entries' [= <-]. split_and!.
      * by rewrite length_fmap.
      * by rewrite <- list_fmap_compose.
      * by rewrite <- list_fmap_compose.
      * apply Forall2_fmap_r, Forall_Forall2_diag, Forall_forall.
        intros e _. unfold video_info. cbn.
        destruct (raw_description_snippet e) as [|first rest]; [done|].
        split; [done|]. intros H.
        destruct (String.substring 0 200 (default "" first)); discriminate H.
  - exists []. split_and!; try done.
  - exists []. split_and!; try done.
Qed.

Lemma search_youtube_videos_hits provider query :
  search_youtube_videos provider query 3 = Ok (hits_for provider query).
Proof.
  unfold search_youtube_videos, hits_for.
  by destruct (provider query 3) as [[entries|]|e].
Qed.

Lemma search_all_hits provider queries : ∀ all_videos,
  search_all provider queries all_videos
  = Ok (all_videos ++ concat (hits_for provider <$> queries)).
Proof.
  induction queries as [|query rest IH]; intros all_videos.
  - cbn. by rewrite app_nil_r.
  - cbn [search_all]. rewrite search_youtube_videos_hits. cbn.
    by rewrite IH, (assoc_L (++)).
Qed.

(** The playlist as a function of what the queries return. *)
Lemma create_learning_playlist_eq provider topic background commitment :
  let queries := search_queries_for (classify background) topic in
  let unique_videos :=
    collect_unique_videos (concat (hits_for provider <$> queries)) in
  create_learning_playlist provider topic background commitment
  = Ok (mkPlaylist topic (classify background) background commitment
          (length unique_videos) (half_hours (length unique_videos))
          (mkPhase "Foundation" "Build basic understanding and concepts"
                   (phase_1 unique_videos))
          (mkPhase "Core Learning"
                   "Deep dive into main concepts and practical examples"
                   (phase_2 unique_videos))
          (mkPhase "Advanced Application"
                   "Advanced topics and real-world applications"
                   (phase_3 unique_videos))
          (generate_daily_schedule unique_videos commitment)
          queries).
Proof.
  intros queries unique_videos. unfold create_learning_playlist.
  rewrite search_all_hits. reflexivity.
Qed.

Lemma collect_unique_videos_length l : length (collect_unique_videos l) ≤ 15.
Proof. rewrite collect_unique_videos_spec, length_take. lia. Qed.

Lemma collect_unique_videos_length_le l :
  length (collect_unique_videos l) ≤ length l.
Proof.
  rewrite collect_unique_videos_spec, length_take.
  pose proof (sublist_length _ _ (first_occurrences_after_sublist [] l)) as H.
  rewrite <- first_occurrences_after_nil in H. lia.
Qed.

(** X2. A failing query is absorbed: the videos that reach deduplication
    are the hits of the four queries in query order, a query whose search
    raises or returns nothing contributing no video, and the playlist is
    built from them in every case ([create_learning_playlist] never
    raises). *)
Theorem X2_failed_queries_contribute_nothing (provider : SearchProvider)
    (topic background commitment : string) :
  let queries := search_queries_for (classify background) topic in
  ∃ playlist,
    create_learning_playlist provider topic background commitment = Ok playlist
    ∧ length queries = 4
    ∧ pl_search_queries playlist = queries
    ∧ phase_videos (pl_phase_1 playlist) ++ phase_videos (pl_phase_2 playlist)
        ++ phase_videos (pl_phase_3 playlist)
      = collect_unique_videos (concat (hits_for provider <$> queries))
    ∧ (∀ query, query ∈ queries →
         (∀ e, provider query 3 = Raise e → hits_for provider query = [])
         ∧ (provider query 3 = Ok None → hits_for provider query = [])
         ∧ (∀ entries, provider query 3 = Ok (Some entries) →
              hits_for provider query = video_info <$> entries)).
Proof.
  intros queries. eexists. split; [apply create_learning_playlist_eq|].
  cbn [pl_search_queries pl_phase_1 pl_phase_2 pl_phase_3 phase_videos].
  fold queries. split_and!.
  - unfold queries. by destruct (classify background).
  - done.
  - set (u := collect_unique_videos _).
    rewrite phase_1_slice, phase_2_slice, phase_3_slice
      by apply collect_unique_videos_length.
    rewrite slice_from_0, (assoc_L (++)), !slice_adjacent by lia.
    apply take_ge, collect_unique_videos_length.
  - intros query _. unfold hits_for. split_and!.
    + by intros e ->.
    + by intros ->.
    + by intros entries ->.
Qed.

(** X3. In every playlist [total_videos] is the number of videos in the
    three phases together and is at most 15; phases fill in order: phase 1
    and phase 2 never hold more than five videos, phase 2 is non-empty
    only when phase 1 holds five, and phase 3 only when phase 2 holds
    five; and no URL occurs twice across the phases. *)
Theorem X3_phases_fill_in_order (provider : SearchProvider)
    (topic background commitment : string) :
  ∃ playlist,
    create_learning_playlist provider topic background commitment = Ok playlist
    ∧ (let p1 := phase_videos (pl_phase_1 playlist) in
       let p2 := phase_videos (pl_phase_2 playlist) in
       let p3 := phase_videos (pl_phase_3 playlist) in
       pl_total_videos playlist = length p1 + length p2 + length p3
       ∧ pl_total_videos playlist ≤ 15
       ∧ length p1 ≤ 5 ∧ length p2 ≤ 5 ∧ length p3 ≤ 5
       ∧ (p2 ≠ [] → length p1 = 5)
       ∧ (p3 ≠ [] → length p2 = 5)
       ∧ NoDup (url <$> p1 ++ p2 ++ p3)).
Proof.
  eexists. split; [apply create_learning_playlist_eq|].
  cbn [pl_total_videos pl_phase_1 pl_phase_2 pl_phase_3 phase_videos].
  set (u := collect_unique_videos _).
  pose proof (collect_unique_videos_length
    (concat (hits_for provider
               <$> search_queries_for (classify background) topic))) as Hlen.
  fold u in Hlen.
  assert (Hnd : NoDup (url <$> u)).
  { unfold u. rewrite collect_unique_videos_spec, fmap_take.
    eapply sublist_NoDup; [|apply sublist_take].
    rewrite first_occurrences_after_nil. apply first_occurrences_after_NoDup. }
  assert (Hcat : phase_1 u ++ phase_2 u ++ phase_3 u = u).
  { rewrite phase_1_slice, phase_2_slice, phase_3_slice by done.
    rewrite slice_from_0, (assoc_L (++)), !slice_adjacent by lia.
    by apply take_ge. }
  assert (H1 : length (phase_1 u) = Nat.min 5 (length u)).
  { rewrite phase_1_slice, slice_from_0, length_take. lia. }
  assert (H2 : length (phase_2 u) = Nat.min 5 (length u - 5)).
  { rewrite phase_2_slice. unfold slice. rewrite length_take, length_drop. lia. }
  assert (H3 : length (phase_3 u) = Nat.min 5 (length u - 10)).
  { rewrite phase_3_slice by done. unfold slice.
    rewrite length_take, length_drop. lia. }
  cbv zeta. split_and!; try lia.
  - intros Hne.
    assert (0 < length (phase_2 u)) by (destruct (phase_2 u); [done|cbn; lia]).
    lia.
  - intros Hne.
    assert (0 < length (phase_3 u)) by (destruct (phase_3 u); [done|cbn; lia]).
    lia.
  - by rewrite Hcat.
Qed.

Lemma hits_for_length provider query :
  honours_limit provider → length (hits_for provider query) ≤ 3.
Proof.
  intros Hlimit. unfold hits_for.
  destruct (provider query 3) as [[entries|]|e] eqn:E; cbn; try lia.
  rewrite length_fmap. by eapply Hlimit.
Qed.

Lemma concat_length_bound {A} (ls : list (list A)) b :
  Forall (λ l, length l ≤ b) ls → length (concat ls) ≤ length ls * b.
Proof.
  induction 1 as [|l ls Hl _ IH]; cbn; [lia|]. rewrite length_app. lia.
Qed.

(** X4. When the provider never returns more entries than the limit it is
    given, a playlist holds at most 12 videos (four queries of three), so
    the cap of 15 is never reached, phase 3 holds at most two videos, and
    the URL of every video found by any query appears in the phases. *)
Theorem X4_limit_keeps_playlist_under_cap (provider : SearchProvider)
    (topic background commitment : string) :
  honours_limit provider →
  ∃ playlist,
    create_learning_playlist provider topic background commitment = Ok playlist
    ∧ pl_total_videos playlist ≤ 12
    ∧ length (phase_videos (pl_phase_3 playlist)) ≤ 2
    ∧ ∀ v, v ∈ concat (hits_for provider
                         <$> search_queries_for (classify background) topic) →
           url v ∈ url <$> (phase_videos (pl_phase_1 playlist)
                            ++ phase_videos (pl_phase_2 playlist)
                            ++ phase_videos (pl_phase_3 playlist)).
Proof.
  intros Hlimit. eexists. split; [apply create_learning_playlist_eq|].
  cbn [pl_total_videos pl_phase_1 pl_phase_2 pl_phase_3 phase_videos].
  set (hits := concat _). set (u := collect_unique_videos hits).
  assert (Hhits : length hits ≤ 12).
  { unfold hits.
    etrans; [apply (concat_length_bound _ 3)|].
    - apply Forall_fmap, Forall_forall. intros q _. cbn.
      by apply hits_for_length.
    - rewrite length_fmap. by destruct (classify background). }
  pose proof (collect_unique_videos_length_le hits) as Hle. fold u in Hle.
  assert (Hall : u = first_occurrences hits).
  { unfold u. rewrite collect_unique_videos_spec. apply take_ge.
    pose proof (sublist_length _ _ (first_occurrences_after_sublist [] hits)) as H.
    rewrite <- first_occurrences_after_nil in H. lia. }
  split_and!.
  - lia.
  - rewrite phase_3_slice by lia. unfold slice.
    rewrite length_take, length_drop. lia.
  - intros v Hv.
    rewrite phase_1_slice, phase_2_slice, phase_3_slice by lia.
    rewrite slice_from_0, (assoc_L (++)), !slice_adjacent by lia.
    rewrite take_ge by lia. rewrite Hall.
    destruct (first_occurrences_after_complete [] hits v Hv) as [H|H];
      [by apply elem_of_nil in H|].
    by rewrite first_occurrences_after_nil.
Qed.

(** X5. When every search raises, the playlist is still built: it has no
    videos, three empty phases and a schedule of exactly one day, [day_1],
    without videos, so the "videos per day" figure read from [day_1] is 0. *)
Theorem X5_all_searches_fail (provider : SearchProvider)
    (topic background commitment : string) :
  (∀ query max_results, ∃ e, provider query max_results = Raise e) →
  ∃ playlist,
    create_learning_playlist provider topic background commitment = Ok playlist
    ∧ pl_total_videos playlist = 0
    ∧ phase_videos (pl_phase_1 playlist) = []
    ∧ phase_videos (pl_phase_2 playlist) = []
    ∧ phase_videos (pl_phase_3 playlist) = []
    ∧ pl_daily_schedule playlist = [("day_1", make_day [])]
    ∧ videos_per_day (pl_daily_schedule playlist) = Ok 0.
Proof.
  intros Hfail. eexists. split; [apply create_learning_playlist_eq|].
  cbn [pl_total_videos pl_phase_1 pl_phase_2 pl_phase_3 phase_videos
       pl_daily_schedule].
  assert (Hhits : concat (hits_for provider
                     <$> search_queries_for (classify background) topic) = []).
  { assert (H : ∀ q, hits_for provider q = []).
    { intros q. unfold hits_for. by destruct (Hfail q 3) as [e ->]. }
    destruct (classify background); cbn; by rewrite !H. }
  rewrite Hhits. cbn [collect_unique_videos foldl fst length].
  assert (Hsched : generate_daily_schedule [] commitment = [("day_1", make_day [])]).
  { unfold generate_daily_schedule.
    pose proof (daily_videos_range commitment) as Hd.
    assert (Hd' : daily_videos commitment = 1 ∨ daily_videos commitment = 2
                  ∨ daily_videos commitment = 3) by lia.
    destruct Hd' as [-> | [-> | ->]]; reflexivity. }
  rewrite Hsched. split_and!; reflexivity.
Qed.

(** ** Difficulty *)

Lemma lower_ascii_idemp c : PyStr.lower_ascii (PyStr.lower_ascii c) = PyStr.lower_ascii c.
Proof. by destruct c as [[] [] [] [] [] [] [] []]. Qed.

Lemma lower_upper_ascii c : PyStr.lower_ascii (PyFmt.upper_ascii c) = PyStr.lower_ascii c.
Proof. by destruct c as [[] [] [] [] [] [] [] []]. Qed.

Lemma lower_idemp s : PyStr.lower (PyStr.lower s) = PyStr.lower s.
Proof. induction s as [|c s IH]; cbn; [done|]. by rewrite lower_ascii_idemp, IH. Qed.

Lemma lower_upper s : PyStr.lower (PyFmt.upper s) = PyStr.lower s.
Proof. induction s as [|c s IH]; cbn; [done|]. by rewrite lower_upper_ascii, IH. Qed.

(** X6. The difficulty depends on the background text only up to letter
    case: the text, its lower-cased form and its upper-cased form get the
    same difficulty, and with it the same four queries.  (Letter case is that of
    the ASCII letters, the only ones [lower] changes here.) *)
Theorem X6_difficulty_ignores_case (background topic : string) :
  classify (PyStr.lower background) = classify background
  ∧ classify (PyFmt.upper background) = classify background
  ∧ search_queries_for (classify (PyFmt.upper background)) topic
    = search_queries_for (classify background) topic.
Proof.
  assert (H1 : classify (PyStr.lower background) = classify background).
  { unfold classify. by rewrite lower_idemp. }
  assert (H2 : classify (PyFmt.upper background) = classify background).
  { unfold classify. by rewrite lower_upper. }
  split_and!; try done. by rewrite H2.
Qed.

(** ** Schedule *)

Lemma schedule_day_videos videos commitment :
  (λ kv, day_videos kv.2) <$> generate_daily_schedule videos commitment
  = (λ k, to_entry <$> slice ((k - 1) * daily_videos commitment)
                             (k * daily_videos commitment) videos)
      <$> seq 1 (days_needed (length videos) (daily_videos commitment)).
Proof.
  unfold generate_daily_schedule.
  by rewrite build_schedule_spec, <- list_fmap_compose.
Qed.

Lemma schedule_entries videos commitment :
  concat ((λ kv, day_videos kv.2) <$> generate_daily_schedule videos commitment)
  = to_entry <$> take (days_needed (length videos) (daily_videos commitment)
                       * daily_videos commitment) videos.
Proof.
  rewrite schedule_day_videos.
  rewrite <- (concat_slices videos (daily_videos commitment)).
  apply (concat_fmap_each to_entry
           (λ k, slice ((k - 1) * daily_videos commitment)
                       (k * daily_videos commitment) videos)).
Qed.

Lemma slice_length {A} (xs : list A) a b :
  length (slice a b xs) = Nat.min (b - a) (length xs - a).
Proof. unfold slice. by rewrite length_take, length_drop. Qed.

(** X7. A schedule is never empty and its first item is [day_1], holding
    [min(n, d)] videos, so reading ["day_1"] from a schedule, as the
    summary display does, never fails; no day holds more than [d] videos,
    and when there are at least [d] videos every day holds exactly [d]. *)
Theorem X7_schedule_has_day_1 (videos : list VideoItem) (commitment : string) :
  let d := daily_videos commitment in
  let n := length videos in
  let schedule := generate_daily_schedule videos commitment in
  (∃ plan rest, schedule = ("day_1", plan) :: rest
                ∧ length (day_videos plan) = Nat.min n d)
  ∧ videos_per_day schedule = Ok (Nat.min n d)
  ∧ Forall (λ kv, length (day_videos kv.2) ≤ d) schedule
  ∧ (d ≤ n → Forall (λ kv, length (day_videos kv.2) = d) schedule).
Proof.
  intros d n schedule.
  pose proof (daily_videos_range commitment) as Hd. fold d in Hd.
  assert (Hsched : schedule
    = (λ k, (day_key k, make_day (to_entry <$> slice ((k - 1) * d) (k * d) videos)))
        <$> seq 1 (days_needed n d)).
  { subst schedule. unfold generate_daily_schedule. by rewrite build_schedule_spec. }
  assert (Hdays : ∃ m, days_needed n d = S m).
  { unfold days_needed. exists (Nat.max 1 (n / d) - 1). lia. }
  destruct Hdays as [m Hm].
  assert (Hfirst : ∃ plan rest, schedule = ("day_1", plan) :: rest
                     ∧ length (day_videos plan) = Nat.min n d).
  { rewrite Hsched, Hm. cbn [seq fmap list_fmap]. eexists _, _.
    split; [reflexivity|]. cbn [day_videos make_day].
    rewrite length_fmap, slice_length. fold n. lia. }
  split; [done|]. split.
  { destruct Hfirst as (plan & rest & -> & Hlen). cbn. by rewrite Hlen. }
  split.
  - rewrite Hsched. apply Forall_fmap, Forall_forall. intros k _. cbn.
    rewrite length_fmap, slice_length. nia.
  - intros Hnd. rewrite Hsched. apply Forall_fmap, Forall_forall.
    intros k Hk. cbn. rewrite length_fmap, slice_length. fold n.
    apply elem_of_seq in Hk.
    assert (Hq : 1 ≤ n / d) by (apply Nat.div_le_lower_bound; lia).
    assert (Hdn : days_needed n d = n / d) by (unfold days_needed; lia).
    pose proof (Nat.div_mod_eq n d) as Hdm.
    assert (k * d ≤ n) by nia.
    nia.
Qed.

(** X8. In every playlist the daily schedule is consistent with the
    phases: read in day order, the scheduled videos are the leading videos
    of phase 1, phase 2 and phase 3 taken in that order, so no URL is
    scheduled twice and nothing is scheduled that is not in a phase. *)
Theorem X8_schedule_follows_phases (provider : SearchProvider)
    (topic background commitment : string) :
  ∃ playlist,
    create_learning_playlist provider topic background commitment = Ok playlist
    ∧ (let unique_videos :=
         phase_videos (pl_phase_1 playlist) ++ phase_videos (pl_phase_2 playlist)
           ++ phase_videos (pl_phase_3 playlist) in
       let scheduled :=
         concat ((λ kv, day_videos kv.2) <$> pl_daily_schedule playlist) in
       scheduled
       = to_entry <$> take (scheduled_count (pl_daily_schedule playlist))
                           unique_videos
       ∧ NoDup (entry_url <$> scheduled)
       ∧ scheduled_count (pl_daily_schedule playlist)
         ≤ pl_total_videos playlist).
Proof.
  eexists. split; [apply create_learning_playlist_eq|].
  cbn [pl_total_videos pl_phase_1 pl_phase_2 pl_phase_3 phase_videos
       pl_daily_schedule].
  set (u := collect_unique_videos _).
  pose proof (collect_unique_videos_length
    (concat (hits_for provider
               <$> search_queries_for (classify background) topic))) as Hlen.
  fold u in Hlen.
  assert (Hcat : phase_1 u ++ phase_2 u ++ phase_3 u = u).
  { rewrite phase_1_slice, phase_2_slice, phase_3_slice by done.
    rewrite slice_from_0, (assoc_L (++)), !slice_adjacent by lia.
    by apply take_ge. }
  assert (Hnd : NoDup (url <$> u)).
  { unfold u. rewrite collect_unique_videos_spec, fmap_take.
    eapply sublist_NoDup; [|apply sublist_take].
    rewrite first_occurrences_after_nil. apply first_occurrences_after_NoDup. }
  cbv zeta. rewrite Hcat.
  assert (Hcount : scheduled_count (generate_daily_schedule u commitment)
                   = Nat.min (length u)
                       (days_needed (length u) (daily_videos commitment)
                        * daily_videos commitment))
    by apply scheduled_count_build.
  rewrite schedule_entries.
  split_and!.
  - rewrite Hcount. f_equal.
    destruct (decide (length u ≤ days_needed (length u) (daily_videos commitment)
                                 * daily_videos commitment)).
    + rewrite Nat.min_l by lia. by rewrite !take_ge by lia.
    + by rewrite Nat.min_r by lia.
  - rewrite <- list_fmap_compose.
    assert (Heq : entry_url ∘ to_entry = url) by done.
    rewrite Heq, fmap_take.
    eapply sublist_NoDup; [exact Hnd|apply sublist_take].
  - rewrite Hcount. lia.
Qed.

(** ** Notes *)

Section Contains.
Import PyStr.

Lemma prefix_append needle rest : String.prefix needle (needle +:+ rest) = true.
Proof.
  induction needle as [|a needle IH]; [by destruct rest|].
  rewrite append_cons. cbn. by destruct (ascii_dec a a).
Qed.

Lemma prefix_append_mono needle s rest :
  String.prefix needle s = true → String.prefix needle (s +:+ rest) = true.
Proof.
  revert s. induction needle as [|a needle IH]; intros s H.
  - by destruct (s +:+ rest).
  - destruct s as [|b s]; [done|]. rewrite append_cons. cbn in *.
    destruct (ascii_dec a b); [by apply IH|done].
Qed.

Lemma contains_unfold needle s :
  contains needle s
  = String.prefix needle s
    || match s with EmptyString => false | String _ r => contains needle r end.
Proof. by destruct s. Qed.

Lemma contains_append_l needle s rest :
  contains needle s = true → contains needle (s +:+ rest) = true.
Proof.
  induction s as [|a s IH]; intros H.
  - rewrite contains_unfold in H. rewrite orb_false_r in H.
    rewrite contains_unfold. apply orb_true_iff. left.
    by apply (prefix_append_mono needle "").
  - rewrite contains_unfold in H. apply orb_true_iff in H as [H|H].
    + rewrite contains_unfold. apply orb_true_iff. left.
      by apply prefix_append_mono.
    + rewrite append_cons, contains_unfold. apply orb_true_iff. right. by apply IH.
Qed.

Lemma contains_append_r needle before s :
  contains needle s = true → contains needle (before +:+ s) = true.
Proof.
  intros H. induction before as [|a before IH]; [done|].
  rewrite append_cons, contains_unfold. apply orb_true_iff. by right.
Qed.

Lemma contains_here needle rest : contains needle (needle +:+ rest) = true.
Proof. rewrite contains_unfold. by rewrite prefix_append. Qed.

Lemma contains_refl needle : contains needle needle = true.
Proof.
  rewrite <- (append_nil_r needle) at 2. apply contains_here.
Qed.

Lemma contains_join_empty needle pieces piece :
  piece ∈ pieces → contains needle piece = true →
  contains needle (join_empty pieces) = true.
Proof.
  induction pieces as [|p ps IH]; intros Hin Hc; [by apply elem_of_nil in Hin|].
  cbn [join_empty foldr].
  apply elem_of_cons in Hin as [->|Hin].
  - by apply contains_append_l.
  - apply contains_append_r. by apply IH.
Qed.

End Contains.

Lemma day_video_lines_contains video :
  PyStr.contains (entry_title video) (day_video_lines video) = true
  ∧ PyStr.contains (entry_url video) (day_video_lines video) = true
  ∧ PyStr.contains (entry_duration video) (day_video_lines video) = true.
Proof.
  unfold day_video_lines. split_and!.
  - apply contains_append_l, contains_append_r, contains_here.
  - apply contains_append_r, contains_append_r, contains_refl.
  - apply contains_append_l.
    do 3 apply contains_append_r. apply contains_here.
Qed.

Lemma day_lines_contains needle key plan video :
  video ∈ day_videos plan →
  PyStr.contains needle (day_video_lines video) = true →
  PyStr.contains needle (day_lines (key, plan)) = true.
Proof.
  intros Hin Hc. unfold day_lines.
  do 4 apply contains_append_r. apply contains_append_l.
  apply (contains_join_empty _ _ (day_video_lines video)); [|done].
  apply list_elem_of_fmap. eauto.
Qed.

Lemma curriculum_section_contains needle playlist_data key plan video :
  (key, plan) ∈ pl_daily_schedule playlist_data →
  video ∈ day_videos plan →
  PyStr.contains needle (day_video_lines video) = true →
  PyStr.contains needle (curriculum_section playlist_data) = true.
Proof.
  intros Hday Hin Hc. unfold curriculum_section.
  apply contains_append_r, contains_append_l.
  apply (contains_join_empty _ _ (day_lines (key, plan))).
  - apply list_elem_of_fmap. eauto.
  - by eapply day_lines_contains.
Qed.

(** X9. On the fallback path (no API key, or a generator that raises) the
    document for a given playlist contains the title, the duration and the
    link of every video of every day of the playlist's schedule. *)
Theorem X9_notes_list_every_scheduled_video (env : gmap string string)
    (generator : NarrativeGenerator) (topic background commitment : string)
    (playlist_data : Playlist) (key : string) (plan : DayPlan)
    (video : ScheduleEntry) :
  truthy (getenv env "GEMINI_API_KEY") = false
  ∨ (∃ e, generator (base_context topic background commitment) = Raise e) →
  (key, plan) ∈ pl_daily_schedule playlist_data →
  video ∈ day_videos plan →
  let notes :=
    generate_learning_notes env generator topic background commitment
      (Some playlist_data) in
  PyStr.contains (entry_title video) notes = true
  ∧ PyStr.contains (entry_url video) notes = true
  ∧ PyStr.contains (entry_duration video) notes = true.
Proof.
  intros Hfallback Hday Hin notes. subst notes.
  rewrite generate_learning_notes_fallback by done.
  destruct (day_video_lines_contains video) as (Ht & Hu & Hd).
  split_and!; apply contains_append_r;
    by eapply curriculum_section_contains.
Qed.

Section Decimal.

(** The ten digit characters. *)
Local Abbreviation digit c := (c ∈ ["0"; "1"; "2"; "3"; "4"; "5"; "6"; "7"; "8"; "9"]%char).

Lemma pretty_N_char_digit x : digit (pretty_N_char x).
Proof. unfold pretty_N_char. repeat case_match; set_solver. Qed.

Lemma pretty_N_go_digits x : ∀ s,
  Forall (λ c, digit c) (PyStr.chars s) →
  Forall (λ c, digit c) (PyStr.chars (pretty_N_go x s)).
Proof.
  induction (N.lt_wf_0 x) as [x _ IH]; intros s Hs.
  assert (x = 0 ∨ 0 < x)%N as [->|?] by lia; [by rewrite pretty_N_go_0|].
  rewrite pretty_N_go_step by done. apply IH; [by apply N.div_lt|].
  rewrite chars_cons. constructor; [apply pretty_N_char_digit|done].
Qed.

Lemma pretty_nat_digits (k : nat) : Forall (λ c, digit c) (PyStr.chars (pretty k)).
Proof.
  unfold pretty, pretty_nat, pretty, pretty_N. case_decide.
  - by repeat constructor.
  - apply pretty_N_go_digits. constructor.
Qed.

Lemma digits_unchanged s :
  Forall (λ c, digit c) (PyStr.chars s) →
  PyFmt.replace_char "_" " " s = s ∧ PyFmt.title_from false s = s.
Proof.
  induction s as [|c s IH]; intros Hs; [done|].
  rewrite chars_cons in Hs. apply Forall_cons in Hs as [Hc Hs].
  destruct (IH Hs) as [IH1 IH2]. cbn [PyFmt.replace_char PyFmt.title_from].
  rewrite IH1.
  assert (Hcase : Ascii.eqb c "_" = false
                  ∧ PyFmt.is_upper c || PyFmt.is_lower c = false).
  { repeat (apply elem_of_cons in Hc as [->|Hc]; [done|]).
    by apply elem_of_nil in Hc. }
  destruct Hcase as [-> ->]. by rewrite IH2.
Qed.

Lemma day_heading k :
  PyFmt.title (PyFmt.replace_char "_" " " (day_key k)) = "Day " +:+ pretty k.
Proof.
  unfold day_key, PyFmt.title.
  destruct (digits_unchanged (pretty k) (pretty_nat_digits k)) as [H1 H2].
  change (PyFmt.replace_char "_" " " ("day_" +:+ pretty k))
    with ("day " +:+ PyFmt.replace_char "_" " " (pretty k)).
  rewrite H1.
  change (PyFmt.title_from false ("day " +:+ pretty k))
    with ("Day " +:+ PyFmt.title_from false (pretty k)).
  by rewrite H2.
Qed.

Lemma tenths_half_hours n :
  Qfloor (half_hours n * 10 + (1 # 2)) = (5 * Z.of_nat n)%Z.
Proof.
  unfold half_hours, Qfloor, Qplus, Qmult, inject_Z. cbn [Qnum Qden].
  symmetry. apply (Z.div_unique _ _ _ 2%Z); lia.
Qed.

Lemma pretty_Z_of_nat (k : nat) : pretty (Z.of_nat k) = pretty k.
Proof.
  unfold pretty at 2, pretty_nat. unfold pretty at 1, pretty_Z.
  destruct k as [|k]; [done|]. cbn [Z.of_nat N.of_nat]. done.
Qed.

Lemma format_half_hours n :
  PyFmt.format_1f (half_hours n)
  = pretty (n / 2) +:+ "." +:+ (if Nat.even n then "0" else "5").
Proof.
  unfold PyFmt.format_1f. rewrite tenths_half_hours.
  assert (Hdiv : (5 * Z.of_nat n / 10)%Z = Z.of_nat (n / 2)).
  { rewrite Nat2Z.inj_div. cbn [Z.of_nat].
    replace 10%Z with (5 * 2)%Z by done.
    rewrite Z.div_mul_cancel_l by lia. done. }
  assert (Hmod : (5 * Z.of_nat n mod 10)%Z = if Nat.even n then 0%Z else 5%Z).
  { pose proof (Nat.div_mod_eq n 2) as Hn.
    pose proof (Nat.mod_upper_bound n 2) as Hb.
    destruct (Nat.even n) eqn:E.
    - apply Nat.even_spec in E as [m ->].
      replace (5 * Z.of_nat (2 * m))%Z with (Z.of_nat m * 10)%Z by lia.
      apply Z.mod_mul. lia.
    - assert (Hodd : Nat.odd n = true) by (by rewrite <- Nat.negb_even, E).
      apply Nat.odd_spec in Hodd as [m ->].
      replace (5 * Z.of_nat (2 * m + 1))%Z with (5 + Z.of_nat m * 10)%Z by lia.
      rewrite Z.mod_add by lia. done. }
  rewrite Hdiv, Hmod, pretty_Z_of_nat. by destruct (Nat.even n).
Qed.

End Decimal.

(** X10. The block written for an item of a schedule built by
    [generate_daily_schedule] starts with the heading "Day k:", then the
    focus line naming the number [m] of videos of that day, then the
    estimated time [m / 2] printed with one decimal, which is [.0] for an
    even [m] and [.5] for an odd one. *)
Theorem X10_day_block_heading (videos : list VideoItem) (commitment : string)
    (i : nat) (item : string * DayPlan) :
  generate_daily_schedule videos commitment !! i = Some item →
  let m := length (day_videos item.2) in
  item.1 = day_key (S i)
  ∧ String.prefix
      ("
Day " +:+ pretty (S i) +:+ ":
- Focus: Complete " +:+ pretty m +:+ " video(s) from the playlist
- Estimated Time: " +:+ pretty (m / 2) +:+ "."
         +:+ (if Nat.even m then "0" else "5") +:+ " hours
- Videos:")
      (day_lines item) = true.
Proof.
  intros Hitem m.
  unfold generate_daily_schedule in Hitem. rewrite build_schedule_spec in Hitem.
  apply list_lookup_fmap_Some in Hitem as (k & -> & Hk).
  apply lookup_seq in Hk as [-> _].
  cbn [fst snd] in *. split; [done|].
  set (expected := "
Day " +:+ _).
  assert (Heq : day_lines
            (day_key (1 + i),
             make_day (to_entry <$>
               slice ((1 + i - 1) * daily_videos commitment)
                     ((1 + i) * daily_videos commitment) videos))
          = expected +:+ PyStr.join_empty (day_video_lines <$>
               (to_entry <$>
                  slice ((1 + i - 1) * daily_videos commitment)
                        ((1 + i) * daily_videos commitment) videos)) +:+ "
").
  { unfold day_lines, expected.
    cbn [focus estimated_time make_day day_videos]. fold m.
    rewrite day_heading, format_half_hours.
    rewrite !append_assoc. reflexivity. }
  rewrite Heq. apply prefix_append.
Qed.

(** ** Mail transport *)

Section Transport.
Variable server : SmtpServer.

Lemma smtp_session_run mode host port timeout debug username password msg :
  smtp_session server mode host port timeout debug username password msg []
  = match run_calls server (plan_connect mode host port timeout) with
    | (Raise e, made) => (Raise e, made)
    | (Ok _, made) =>
        let '(outcome, made') :=
          run_calls server (plan_session mode debug username password msg) in
        (match server Quit with
         | Raise e => Raise e
         | Ok _ => outcome
         end, made ++ made' ++ [Quit])
    end.
Proof.
  unfold smtp_session, plan_connect, plan_session.
  destruct (String.eqb mode "ssl") eqn:Hssl;
    destruct (debug =? 0)%Z eqn:Hdebug;
    [| |destruct (String.eqb mode "starttls") eqn:Htls
       |destruct (String.eqb mode "starttls") eqn:Htls];
    cbn [negb smtp_when app run_calls smtp_block];
    unfold smtp_bind, with_server, smtp_call, smtp_ret;
    cbn [app];
    repeat (match goal with
            | |- context [server ?c] =>
                lazymatch c with
                | Quit => fail
                | _ => destruct (server c) as [[]|?] eqn:?
                end
            end; cbn [app]);
    destruct (server Quit) as [[]|?]; reflexivity.
Qed.

End Transport.

Lemma run_calls_ok server plan :
  (run_calls server plan).1 = Ok () ↔ Forall (λ c, server c = Ok ()) plan.
Proof.
  induction plan as [|c plan IH]; cbn [run_calls].
  - split; [constructor|done].
  - rewrite Forall_cons. destruct (server c) as [[]|e]; cbn.
    + destruct (run_calls server plan) as [outcome made]. cbn in *.
      rewrite IH. tauto.
    + split; [done|]. by intros [? _].
Qed.

Lemma run_calls_ok_made server plan :
  (run_calls server plan).1 = Ok () → (run_calls server plan).2 = plan.
Proof.
  induction plan as [|c plan IH]; cbn [run_calls]; [done|].
  destruct (server c) as [[]|e]; cbn; [|done].
  destruct (run_calls server plan) as [outcome made]. cbn in *.
  intros H. by rewrite IH.
Qed.

(** The construction of a message is the five calls of its plan made in
    order, the first exception ending it. *)
Lemma build_message_plan email sender to_address subject body_text
    attachment_bytes attachment_filename :
  let msg := mkMessage sender to_address subject body_text attachment_bytes
               attachment_filename in
  build_message email sender to_address subject body_text attachment_bytes
    attachment_filename
  = foldr (λ c rest, _ ← email c; rest) (Ok msg) (plan_message msg).
Proof. reflexivity. Qed.

Lemma message_calls_accepted {A} (email : EmailLibrary) (plan : list MessageCall)
    (a : A) :
  Forall (λ c, email c = Ok ()) plan →
  foldr (λ c rest, _ ← email c; rest) (Ok a) plan = Ok a.
Proof. induction 1 as [|c plan Hc _ IH]; cbn; [done|]. by rewrite Hc. Qed.

Lemma message_call_refused {A} (email : EmailLibrary)
    (before after : list MessageCall) (c : MessageCall) (e : exn) (a : A) :
  Forall (λ c, email c = Ok ()) before →
  email c = Raise e →
  foldr (λ c rest, _ ← email c; rest) (Ok a) (before ++ c :: after) = Raise e.
Proof.
  intros Hbefore Hc. induction Hbefore as [|b before Hb _ IH]; cbn.
  - by rewrite Hc.
  - by rewrite Hb.
Qed.

Lemma send_email_run env email server to_address subject body_text
    attachment_bytes attachment_filename port timeout debug :
  smtp_integers env = Ok (port, timeout, debug) →
  get_missing_smtp_env_keys env = [] →
  let msg := message_of env to_address subject body_text attachment_bytes
               attachment_filename in
  send_email_with_attachment env email server to_address subject body_text
    attachment_bytes attachment_filename
  = match foldr (λ c rest, _ ← email c; rest) (Ok msg) (plan_message msg) with
    | Raise e => (Raise e, [])
    | Ok _ =>
        match smtp_session server (secure_mode_of env)
                (str_of (getenv env "SMTP_HOST")) port timeout debug
                (str_of (getenv env "SMTP_USERNAME"))
                (str_of (getenv env "SMTP_PASSWORD")) msg [] with
        | (Ok _, calls) => (Ok true, calls)
        | (Raise _, calls) => (Ok false, calls)
        end
    end.
Proof.
  intros Hint Hmissing msg. unfold send_email_with_attachment.
  rewrite Hint, Hmissing.
  destruct (build_message _ _ _ _ _ _ _) as [built|e] eqn:Hbuild.
  - pose proof (build_message_ok _ _ _ _ _ _ _ _ Hbuild) as ->.
    rewrite build_message_plan in Hbuild. unfold msg, message_of.
    by rewrite Hbuild.
  - rewrite build_message_plan in Hbuild. unfold msg, message_of.
    by rewrite Hbuild.
Qed.

(** X11. With well-formed integer settings and no required key missing,
    the message is built first.  When the [email] library accepts the five
    calls that build it, [send_email_with_attachment] returns [True]
    exactly when the transport accepts every call of the session: context
    and connection for the security mode, the optional debug level,
    STARTTLS in that mode, login, the message, and the closing of the
    session; the calls made are then exactly these, and otherwise the
    result is [False].  When the library raises on one of the five calls,
    a header value with a line break for one, that exception leaves the
    function, which then returns neither [True] nor [False], and no
    transport call is made. *)
Theorem X11_send_succeeds_iff_all_calls_accepted (env : gmap string string)
    (email : EmailLibrary)
    (server : SmtpServer) (to_address subject body_text : string)
    (attachment_bytes : list Byte.byte) (attachment_filename : string)
    (port timeout debug : Z) :
  smtp_integers env = Ok (port, timeout, debug) →
  get_missing_smtp_env_keys env = [] →
  let mode := secure_mode_of env in
  let msg := message_of env to_address subject body_text attachment_bytes
               attachment_filename in
  let plan :=
    plan_connect mode (str_of (getenv env "SMTP_HOST")) port timeout
    ++ plan_session mode debug (str_of (getenv env "SMTP_USERNAME"))
         (str_of (getenv env "SMTP_PASSWORD")) msg
    ++ [Quit] in
  let result :=
    send_email_with_attachment env email server to_address subject body_text
      attachment_bytes attachment_filename in
  (Forall (λ c, email c = Ok ()) (plan_message msg) →
     (result.1 = Ok true ↔ Forall (λ c, server c = Ok ()) plan)
     ∧ (result.1 = Ok true → result.2 = plan)
     ∧ (result.1 ≠ Ok true → result.1 = Ok false))
  ∧ (∀ before c after e,
       plan_message msg = before ++ c :: after →
       Forall (λ c, email c = Ok ()) before →
       email c = Raise e →
       result = (Raise e, [])).
Proof.
  intros Hint Hmissing mode msg plan result.
  subst result. rewrite (send_email_run _ _ _ _ _ _ _ _ _ _ _ Hint Hmissing).
  cbv zeta. fold msg. split.
  2:{ intros before c after e Hplan Hbefore Hc.
      rewrite Hplan. by rewrite (message_call_refused _ _ _ _ e). }
  intros Haccepted. rewrite (message_calls_accepted _ _ _ Haccepted).
  rewrite smtp_session_run. fold mode.
  set (pc := plan_connect mode (str_of (getenv env "SMTP_HOST")) port timeout).
  set (ps := plan_session mode debug (str_of (getenv env "SMTP_USERNAME"))
               (str_of (getenv env "SMTP_PASSWORD")) msg).
  subst plan. fold pc ps.
  pose proof (run_calls_ok server pc) as Hc.
  pose proof (run_calls_ok_made server pc) as Hcm.
  pose proof (run_calls_ok server ps) as Hs.
  pose proof (run_calls_ok_made server ps) as Hsm.
  rewrite !Forall_app, Forall_singleton.
  destruct (run_calls server pc) as [[[]|e1] made1]; cbn [fst snd] in *.
  - destruct (run_calls server ps) as [[[]|e2] made2]; cbn [fst snd] in *.
    + destruct (server Quit) as [[]|e3]; cbn [fst snd].
      * split_and!; [|intros _; by rewrite Hcm, Hsm|done].
        split; [intros _|done]. split_and!; [by apply Hc|by apply Hs|done].
      * split_and!; [|done|done]. split; [done|]. by intros (_ & _ & ?).
    + assert (¬ Forall (λ c, server c = Ok ()) ps) by (intros ?%Hs; done).
      destruct (server Quit) as [[]|e3]; cbn [fst snd];
        (split_and!; [|done|done]); split; try done; by intros (_ & ? & _).
  - assert (¬ Forall (λ c, server c = Ok ()) pc) by (intros ?%Hc; done).
    split_and!; [|done|done]. split; [done|]. by intros (? & _ & _).
Qed.

(** Case analysis of a call of [send_email_with_attachment]: the settings,
    the security mode, the debug level and the answer of the transport to
    every call of the session. *)
Ltac send_cases env server :=
  unfold send_email_with_attachment;
  destruct (smtp_integers env) as [[[? ?] ?debug]|?];
  [ destruct (get_missing_smtp_env_keys env) eqn:?;
    [ destruct (build_message _ _ _ _ _ _ _) as [?built|?] eqn:?Hbuild;
      [ apply build_message_ok in Hbuild; subst | cbn [fst snd] ] | cbn [fst snd] ]
  | cbn [fst snd] ];
  [ rewrite smtp_session_run; unfold plan_connect, plan_session;
      fold (secure_mode_of env);
      destruct (String.eqb (secure_mode_of env) "ssl") eqn:?Hssl;
      destruct (String.eqb (secure_mode_of env) "starttls") eqn:?Htls;
      destruct (debug =? 0)%Z;
      cbn [run_calls app];
      repeat (match goal with
              | |- context [server ?c] =>
                  lazymatch goal with
                  | H : server c = _ |- _ => fail
                  | _ => destruct (server c) as [[]|?] eqn:?
                  end
              end; cbn [run_calls app fst snd])
  | | | ].

(** Membership of a call in an explicit list of calls. *)
Ltac in_calls H :=
  repeat (apply elem_of_cons in H as [H|H]; [try discriminate H|]);
  try (by apply elem_of_nil in H).

(** A call occurs in an explicit list of calls. *)
Ltac elem_of_calls :=
  repeat first [apply list_elem_of_here | apply list_elem_of_further].

(** X12. A message is handed to the transport only in a complete session:
    if a [send_message] call was made, the message is the one built from
    the arguments and the sender settings, no required key was missing, a
    login was made and accepted before, and every other call made before
    the closing of the session was accepted. *)
Theorem X12_message_sent_only_after_login (env : gmap string string)
    (email : EmailLibrary)
    (server : SmtpServer) (to_address subject body_text : string)
    (attachment_bytes : list Byte.byte) (attachment_filename : string)
    (m : EmailMessage) :
  let calls :=
    (send_email_with_attachment env email server to_address subject body_text
       attachment_bytes attachment_filename).2 in
  SendMessage m ∈ calls →
  m = message_of env to_address subject body_text attachment_bytes
        attachment_filename
  ∧ get_missing_smtp_env_keys env = []
  ∧ Login (str_of (getenv env "SMTP_USERNAME"))
          (str_of (getenv env "SMTP_PASSWORD")) ∈ calls
  ∧ server (Login (str_of (getenv env "SMTP_USERNAME"))
                  (str_of (getenv env "SMTP_PASSWORD"))) = Ok ()
  ∧ (∀ c, c ∈ calls → c ≠ Quit → c ≠ SendMessage m → server c = Ok ()).
Proof.
  intros calls. subst calls. send_cases env server;
    intros Hm; in_calls Hm;
    injection Hm as ->;
    (split_and!; [reflexivity|reflexivity|elem_of_calls|done|]);
    intros c Hc Hq Hs; in_calls Hc; subst c; first [done|congruence].
Qed.

Lemma send_security_calls env email server to_address subject body_text
    attachment_bytes attachment_filename :
  let mode := secure_mode_of env in
  let calls :=
    (send_email_with_attachment env email server to_address subject body_text
       attachment_bytes attachment_filename).2 in
  (String.eqb mode "ssl" = true →
     StartTLS ∉ calls ∧ ∀ h p t, Connect h p t ∉ calls)
  ∧ (String.eqb mode "ssl" = false → String.eqb mode "starttls" = true →
     ∀ u pw, Login u pw ∈ calls →
       StartTLS ∈ calls ∧ server StartTLS = Ok ()
       ∧ server CreateDefaultContext = Ok ())
  ∧ (String.eqb mode "ssl" = false → String.eqb mode "starttls" = false →
     StartTLS ∉ calls ∧ CreateDefaultContext ∉ calls
     ∧ ∀ h p t, ConnectSSL h p t ∉ calls).
Proof.
  intros mode calls. subst mode calls. send_cases env server;
    (split_and!;
     [ intros Hmode;
       first [congruence
             | split; [|intros h p t]; intros Hin; in_calls Hin]
     | intros Hmode Hmode';
       first [congruence
             | intros u pw Hin; in_calls Hin;
               (split_and!; [elem_of_calls|done|done])]
     | intros Hmode Hmode';
       first [congruence
             | split_and!; [| |intros h p t]; intros Hin; in_calls Hin] ]).
Qed.

(** X13. The security mode is the lower-cased SMTP_SECURE setting,
    ["starttls"] when the setting is absent.  In mode ["ssl"] the session
    is opened over TLS and no plain connection or STARTTLS is made; in mode
    ["starttls"] a login is made only after an accepted STARTTLS; with any
    other value no TLS context is created, no STARTTLS and no TLS
    connection is made, so login and message travel over the plain
    connection. *)
Theorem X13_security_mode_decides_tls (env : gmap string string)
    (email : EmailLibrary)
    (server : SmtpServer) (to_address subject body_text : string)
    (attachment_bytes : list Byte.byte) (attachment_filename : string) :
  let mode := secure_mode_of env in
  let calls :=
    (send_email_with_attachment env email server to_address subject body_text
       attachment_bytes attachment_filename).2 in
  (getenv env "SMTP_SECURE" = None → mode = "starttls")
  ∧ (∀ value, getenv env "SMTP_SECURE" = Some value → mode = PyStr.lower value)
  ∧ (mode = "ssl" → StartTLS ∉ calls ∧ ∀ h p t, Connect h p t ∉ calls)
  ∧ (mode = "starttls" →
     ∀ u pw, Login u pw ∈ calls →
       StartTLS ∈ calls ∧ server StartTLS = Ok ()
       ∧ server CreateDefaultContext = Ok ())
  ∧ (mode ≠ "ssl" → mode ≠ "starttls" →
     StartTLS ∉ calls ∧ CreateDefaultContext ∉ calls
     ∧ ∀ h p t, ConnectSSL h p t ∉ calls).
Proof.
  intros mode calls.
  destruct (send_security_calls env email server to_address subject body_text
              attachment_bytes attachment_filename) as (Hssl & Htls & Hnone).
  fold mode calls in Hssl, Htls, Hnone.
  split_and!.
  - intros H. unfold mode, secure_mode_of, getenv_or. unfold getenv in H.
    by rewrite H.
  - intros value H. unfold mode, secure_mode_of, getenv_or. unfold getenv in H.
    by rewrite H.
  - intros H. apply Hssl. by apply String.eqb_eq.
  - intros H. apply Htls; [|by apply String.eqb_eq]. by rewrite H.
  - intros H1 H2. apply Hnone; by apply String.eqb_neq.
Qed.

(** X14. The transport is contacted only when the integer settings are
    well formed and no required key is missing; a session that was opened
    is always closed, the closing being the last call made, and there is a
    closing call only for an opened session. *)
Theorem X14_opened_session_is_closed (env : gmap string string)
    (email : EmailLibrary)
    (server : SmtpServer) (to_address subject body_text : string)
    (attachment_bytes : list Byte.byte) (attachment_filename : string) :
  let calls :=
    (send_email_with_attachment env email server to_address subject body_text
       attachment_bytes attachment_filename).2 in
  let opens c := ∃ h p t, c = Connect h p t ∨ c = ConnectSSL h p t in
  (calls ≠ [] →
     get_missing_smtp_env_keys env = []
     ∧ ∃ integers, smtp_integers env = Ok integers)
  ∧ (∀ c, c ∈ calls → opens c → server c = Ok () → last calls = Some Quit)
  ∧ (Quit ∈ calls →
     last calls = Some Quit
     ∧ ∃ c, c ∈ calls ∧ opens c ∧ server c = Ok ()).
Proof.
  intros calls opens. subst calls opens. send_cases env server;
    (split_and!;
     [ intros Hcalls; first [done | split; [done|eauto]]
     | intros c Hin (h & p & t & [->| ->]) Hok; in_calls Hin;
       first [reflexivity | congruence]
     | intros Hin; in_calls Hin;
       (split; [reflexivity|]);
       match goal with
       | H : server (ConnectSSL ?h ?p ?t) = Ok () |- _ =>
           exists (ConnectSSL h p t);
           split; [elem_of_calls|split; [by exists h, p, t; right|done]]
       | H : server (Connect ?h ?p ?t) = Ok () |- _ =>
           exists (Connect h p t);
           split; [elem_of_calls|split; [by exists h, p, t; left|done]]
       end ]).
Qed.


(** X11 at a complete environment, a library that refuses line breaks in
    header values, and a transport that accepts every call. *)
Lemma X11_send_succeeds_witness :
  (send_email_with_attachment smtp_env strict_email accepting_server
     "user@example.org" "Subject" "Body" [] "path.pdf").1 = Ok true.
Proof.
  destruct (X11_send_succeeds_iff_all_calls_accepted smtp_env strict_email
              accepting_server "user@example.org" "Subject" "Body" []
              "path.pdf" 587 30 0)
    as (Hbuilt & _).
  - reflexivity.
  - reflexivity.
  - destruct Hbuilt as ((_ & Hall) & _ & _).
    + repeat constructor.
    + apply Hall, Forall_forall. intros c _. reflexivity.
Defined.

(** The same call with a line break in the subject: the library's
    [ValueError] leaves the function and the transport is not contacted. *)
Lemma send_email_line_break_in_subject :
  send_email_with_attachment smtp_env strict_email accepting_server
    "user@example.org" "Your path
for Python" "Body" [] "path.pdf"
  = (Raise (ValueError
       "Header values may not contain linefeed or carriage return characters"),
     []).
Proof. vm_compute. reflexivity. Qed.

(** X12 at a complete environment and a transport that accepts every call. *)
Lemma X12_message_sent_witness :
  Login "bot" "secret"
  ∈ (send_email_with_attachment smtp_env accepting_email accepting_server
       "user@example.org" "Subject" "Body" [] "path.pdf").2.
Proof.
  destruct (X12_message_sent_only_after_login smtp_env accepting_email
              accepting_server
              "user@example.org" "Subject" "Body" [] "path.pdf"
              (message_of smtp_env "user@example.org" "Subject" "Body" []
                 "path.pdf"))
    as (_ & _ & Hlogin & _).
  - vm_compute. elem_of_calls.
  - exact Hlogin.
Defined.
(** ** Required settings *)

Lemma filter_ext_in {A} (P Q : A → Prop) `{!∀ x, Decision (P x)}
    `{!∀ x, Decision (Q x)} (l : list A) :
  (∀ x, x ∈ l → P x ↔ Q x) → filter P l = filter Q l.
Proof.
  induction l as [|x l IH]; intros Hext; [done|].
  rewrite !filter_cons.
  rewrite IH by (intros y Hy; apply Hext; by right).
  pose proof (Hext x (list_elem_of_here _ _)) as Hx.
  repeat case_decide; tauto.
Qed.

Lemma get_missing_insert_other env key value :
  key ∉ required_keys →
  get_missing_smtp_env_keys (<[key := value]> env) = get_missing_smtp_env_keys env.
Proof.
  intros Hkey. unfold get_missing_smtp_env_keys.
  apply filter_ext_in. intros k Hk.
  unfold getenv. rewrite lookup_insert_ne; [done|]. by intros ->.
Qed.

(** X15. [get_missing_smtp_env_keys] reports nothing exactly when the four
    required settings are all present and non-empty; setting a required
    key to a non-empty value removes that key and no other from the
    report, setting it to the empty string or deleting it makes it
    reported, and settings outside the four never change the report. *)
Theorem X15_missing_keys_follow_the_environment (env : gmap string string) :
  (get_missing_smtp_env_keys env = []
   ↔ ∀ key, key ∈ required_keys → ∃ value, env !! key = Some value ∧ value ≠ "")
  ∧ (∀ key value, key ∈ required_keys → value ≠ "" →
       get_missing_smtp_env_keys (<[key := value]> env)
       = filter (λ k, k ≠ key) (get_missing_smtp_env_keys env))
  ∧ (∀ key, key ∈ required_keys →
       key ∈ get_missing_smtp_env_keys (<[key := ""]> env)
       ∧ key ∈ get_missing_smtp_env_keys (delete key env))
  ∧ (∀ key value, key ∉ required_keys →
       get_missing_smtp_env_keys (<[key := value]> env)
       = get_missing_smtp_env_keys env).
Proof.
  split_and!.
  - split.
    + intros Hnil key Hkey.
      destruct (env !! key) as [value|] eqn:E.
      * exists value. split; [done|]. intros ->.
        assert (key ∈ get_missing_smtp_env_keys env)
          by (apply get_missing_smtp_env_keys_spec; auto).
        rewrite Hnil in H. by apply elem_of_nil in H.
      * assert (key ∈ get_missing_smtp_env_keys env)
          by (apply get_missing_smtp_env_keys_spec; auto).
        rewrite Hnil in H. by apply elem_of_nil in H.
    + intros Hall.
      destruct (get_missing_smtp_env_keys env) as [|k ks] eqn:E; [done|].
      assert (Hk : k ∈ get_missing_smtp_env_keys env) by (rewrite E; by left).
      apply get_missing_smtp_env_keys_spec in Hk as [Hreq Hk].
      destruct (Hall k Hreq) as (value & Hv & Hne).
      rewrite Hv in Hk. destruct Hk as [?|[= ->]]; done.
  - intros key value Hkey Hvalue. unfold get_missing_smtp_env_keys.
    rewrite list_filter_filter. apply list_filter_iff. intros k.
    unfold getenv. rewrite !truthy_false.
    destruct (decide (key = k)) as [->|Hne].
    + rewrite lookup_insert_eq. split; [|tauto].
      intros [?|[= ?]]; done.
    + rewrite lookup_insert_ne by done. split; [|tauto]. intros H.
      split; [by intros ->|done].
  - intros key Hkey. split; apply get_missing_smtp_env_keys_spec.
    + split; [done|]. right. apply lookup_insert_eq.
    + split; [done|]. left. apply lookup_delete_eq.
  - intros key value Hkey. by apply get_missing_insert_other.
Qed.

(** ** File name of the document *)

Section Slug.

Local Abbreviation slug topic := (PyFmt.replace_char " " "_" (PyStr.lower topic)).

Lemma lower_ascii_not_upper c : PyFmt.is_upper (PyStr.lower_ascii c) = false.
Proof. by destruct c as [[] [] [] [] [] [] [] []]. Qed.

Lemma lower_ascii_space c : PyStr.lower_ascii c = " "%char ↔ c = " "%char.
Proof. destruct c as [[] [] [] [] [] [] [] []]; by split. Qed.

Lemma lower_ascii_slash c : PyStr.lower_ascii c = "/"%char ↔ c = "/"%char.
Proof. destruct c as [[] [] [] [] [] [] [] []]; by split. Qed.

Lemma slug_length topic : String.length (slug topic) = String.length topic.
Proof. induction topic as [|c s IH]; cbn; [done|]. by rewrite IH. Qed.

Lemma slug_chars topic :
  PyStr.chars (slug topic)
  = (λ c, if Ascii.eqb (PyStr.lower_ascii c) " " then "_"%char
          else PyStr.lower_ascii c) <$> PyStr.chars topic.
Proof.
  induction topic as [|c s IH]; [done|].
  cbn [PyStr.lower PyFmt.replace_char]. rewrite !chars_cons, fmap_cons, IH.
  done.
Qed.

Lemma slug_no_space topic : " "%char ∉ PyStr.chars (slug topic).
Proof.
  rewrite slug_chars, list_elem_of_fmap. intros (c & Hc & _).
  destruct (Ascii.eqb (PyStr.lower_ascii c) " ") eqn:E; [done|].
  apply Ascii.eqb_neq in E. done.
Qed.

Lemma slug_no_upper topic :
  Forall (λ c, PyFmt.is_upper c = false) (PyStr.chars (slug topic)).
Proof.
  rewrite slug_chars. apply Forall_fmap, Forall_forall. intros c _. cbn.
  destruct (Ascii.eqb _ _); [done|apply lower_ascii_not_upper].
Qed.

Lemma slug_keeps_slash topic :
  "/"%char ∈ PyStr.chars topic → "/"%char ∈ PyStr.chars (slug topic).
Proof.
  intros H. rewrite slug_chars. apply list_elem_of_fmap. exists "/"%char.
  split; [done|done].
Qed.

Lemma slug_upper topic : slug (PyFmt.upper topic) = slug topic.
Proof. by rewrite lower_upper. Qed.

Lemma slug_underscored topic :
  slug (PyFmt.replace_char " " "_" topic) = slug topic.
Proof.
  induction topic as [|c s IH]; [done|].
  cbn [PyFmt.replace_char PyStr.lower]. rewrite IH. f_equal.
  destruct (Ascii.eqb c " ") eqn:E.
  - apply Ascii.eqb_eq in E as ->. done.
  - done.
Qed.

End Slug.

(** X16. [build_pdf_filename] raises only when the output directory cannot
    be made.  Otherwise the path is ["output/"] followed by the file name,
    and the file name is ["learning_path_"], the topic lower-cased with
    spaces replaced by underscores, ["_"], the time stamp and [".pdf"]:
    the topic part has the length of the topic, no space and no upper-case
    letter, and keeps every ["/"] of the topic; topics that differ only in
    letter case or in spaces against underscores get the same name.
    (Topics are ASCII texts: only [A]..[Z] change case.) *)
Theorem X16_pdf_filename (timestamp : string)
    (makedirs : string → py_result unit) (topic : string) :
  let slug := PyFmt.replace_char " " "_" (PyStr.lower topic) in
  let filename := "learning_path_" +:+ slug +:+ "_" +:+ timestamp +:+ ".pdf" in
  (∀ e, makedirs "output" = Raise e →
        build_pdf_filename timestamp makedirs topic = Raise e)
  ∧ (makedirs "output" = Ok () →
     build_pdf_filename timestamp makedirs topic
     = Ok (filename, "output/" +:+ filename))
  ∧ String.length slug = String.length topic
  ∧ " "%char ∉ PyStr.chars slug
  ∧ Forall (λ c, PyFmt.is_upper c = false) (PyStr.chars slug)
  ∧ ("/"%char ∈ PyStr.chars topic → "/"%char ∈ PyStr.chars filename)
  ∧ build_pdf_filename timestamp makedirs (PyFmt.upper topic)
    = build_pdf_filename timestamp makedirs topic
  ∧ build_pdf_filename timestamp makedirs (PyFmt.replace_char " " "_" topic)
    = build_pdf_filename timestamp makedirs topic.
Proof.
  intros slug filename. split_and!.
  - intros e He. unfold build_pdf_filename, ensure_output_dir. by rewrite He.
  - intros Hok. unfold build_pdf_filename, ensure_output_dir. rewrite Hok.
    reflexivity.
  - apply slug_length.
  - apply slug_no_space.
  - apply slug_no_upper.
  - intros H. unfold filename.
    rewrite !chars_append, !elem_of_app. right. left. by apply slug_keeps_slash.
  - unfold build_pdf_filename. by rewrite slug_upper.
  - unfold build_pdf_filename. by rewrite slug_underscored.
Qed.

(** ** Text wrapper: further properties *)

Section WrapperExtras.
Import PyStr.
Variable get_string_width : string → Q.
Variable available_width : Q.

Local Abbreviation step := (render_step get_string_width available_width).
Local Abbreviation split_fold := (foldl (split_step get_string_width available_width)).
Local Abbreviation narrow s := (get_string_width s < available_width)%Q.

Lemma render_fold_all_fit words : ∀ current,
  (∀ k, 1 ≤ k ≤ length words → narrow (join_space (current ++ take k words))) →
  (∀ word, word ∈ words → ¬ (available_width < get_string_width word)%Q) →
  foldl step ([], current) words = ([], current ++ words).
Proof.
  induction words as [|w ws IH]; intros current Hfit Hnone.
  - cbn. by rewrite app_nil_r.
  - cbn [foldl]. unfold render_step at 2.
    assert (Hw : Qltb available_width (get_string_width w) = false).
    { apply not_true_iff_false. rewrite Qltb_lt. apply Hnone. by left. }
    assert (Hline : Qltb (get_string_width (join_space (current ++ [w])))
                         available_width = true).
    { apply Qltb_lt. apply (Hfit 1). cbn. lia. }
    rewrite Hw, Hline. rewrite IH.
    + by rewrite <- (assoc_L (++)).
    + intros k Hk. rewrite <- (assoc_L (++)). apply (Hfit (S k)). cbn. lia.
    + intros word Hin. apply Hnone. by right.
Qed.

Lemma adjacent_snoc (P : string → string → Prop) l a b :
  adjacent P (l ++ [a]) → P a b → adjacent P ((l ++ [a]) ++ [b]).
Proof.
  induction l as [|x l IH]; intros Hadj Hab; [by cbn|].
  destruct l as [|y l]; cbn in *; [tauto|].
  destruct Hadj as [Hxy Hadj]. split; [done|]. by apply IH.
Qed.

Lemma adjacent_replace_last (P : string → string → Prop) l a a' :
  adjacent P (l ++ [a]) → (∀ x, P x a → P x a') → adjacent P (l ++ [a']).
Proof.
  induction l as [|x l IH]; intros Hadj Himp; [by cbn|].
  destruct l as [|y l]; cbn in *.
  - split; [|done]. apply Himp. tauto.
  - destruct Hadj as [Hxy Hadj]. split; [done|]. by apply IH.
Qed.

Lemma adjacent_lookup (P : string → string → Prop) l i b :
  adjacent P l → l !! S i = Some b → ∃ a, l !! i = Some a ∧ P a b.
Proof.
  revert i. induction l as [|x l IH]; intros i Hadj Hb; [done|].
  destruct l as [|y l]; [done|]. destruct Hadj as [Hxy Hadj].
  destruct i as [|i].
  - cbn in Hb. injection Hb as <-. by exists x.
  - apply (IH i Hadj Hb).
Qed.

Local Abbreviation closed_before := (closed_before get_string_width available_width).
Local Abbreviation chunk_ok := (chunk_ok get_string_width available_width).

Lemma split_fold_greedy cs : ∀ chunks current,
  (current = "" → chunks = []) →
  adjacent closed_before (chunks ++ [current]) →
  Forall chunk_ok chunks → chunk_ok current →
  ((split_fold (chunks, current) cs).2 = "" → (split_fold (chunks, current) cs).1 = [])
  ∧ adjacent closed_before
      ((split_fold (chunks, current) cs).1 ++ [(split_fold (chunks, current) cs).2])
  ∧ Forall chunk_ok (split_fold (chunks, current) cs).1
  ∧ chunk_ok (split_fold (chunks, current) cs).2.
Proof.
  induction cs as [|c cs IH]; intros chunks current Hempty Hadj Hchunks Hcur;
    [done|].
  cbn [foldl].
  assert (Hstep : split_step get_string_width available_width (chunks, current) c
            = if Qltb (get_string_width (current +:+ of_char c)) available_width
              then (chunks, current +:+ of_char c)
              else (chunks ++ [current], of_char c)) by done.
  rewrite Hstep. clear Hstep.
  destruct (Qltb _ _) eqn:Hfit.
  - apply IH.
    + by destruct current.
    + eapply adjacent_replace_last; [exact Hadj|].
      intros x (c0 & rest & -> & Hx). exists c0, (rest +:+ of_char c).
      by rewrite append_cons.
    + done.
    + right. left. by apply Qltb_lt.
  - apply IH.
    + done.
    + apply adjacent_snoc; [done|]. exists c, "". split; [done|].
      by apply Qltb_ge.
    + apply Forall_app. split; [done|]. by apply Forall_singleton.
    + right. right. done.
Qed.

End WrapperExtras.

(** X17. A text without an over-wide token whose leading groups of tokens,
    space-joined, are all narrower than the available width is emitted as
    one line, equal to the text. *)
Theorem X17_fitting_text_is_one_line (get_string_width : string → Q)
    (text : string) (available_width : Q) :
  (∀ k, 1 ≤ k ≤ length (PyStr.split_space text) →
        (get_string_width (PyStr.join_space (take k (PyStr.split_space text)))
         < available_width)%Q) →
  (∀ token, token ∈ PyStr.split_space text →
            ¬ (available_width < get_string_width token)%Q) →
  _render_wrapped_text get_string_width text available_width = [text].
Proof.
  intros Hfit Hnone. unfold _render_wrapped_text.
  rewrite (render_fold_all_fit _ _ _ [] Hfit Hnone). cbn [app].
  pose proof (split_space_not_nil text) as Hne.
  unfold flush. destruct (PyStr.split_space text) eqn:E; [done|].
  by rewrite <- E, join_split_space.
Qed.

(** X18. The chunks of [_split_token_to_fit] are cut greedily: a chunk is
    followed by a next chunk only because the first character of the next
    chunk did not fit behind it; hence every chunk but possibly the first
    is non-empty; every chunk is narrower than the available width or is
    a single character or is empty; and the empty token has no chunk. *)
Theorem X18_chunks_cut_greedily (get_string_width : string → Q)
    (token : string) (available_width : Q) :
  let chunks := _split_token_to_fit get_string_width token available_width in
  adjacent (closed_before get_string_width available_width) chunks
  ∧ (∀ i chunk, chunks !! S i = Some chunk → chunk ≠ "")
  ∧ Forall (chunk_ok get_string_width available_width) chunks
  ∧ (token = "" → chunks = []).
Proof.
  intros chunks.
  assert (Hadj : adjacent (closed_before get_string_width available_width) chunks
                 ∧ Forall (chunk_ok get_string_width available_width) chunks).
  { subst chunks. unfold _split_token_to_fit.
    destruct (split_fold_greedy get_string_width available_width
                (PyStr.chars token) [] "") as (H1 & H2 & H3 & H4);
      [done|done|constructor|by left|].
    destruct (foldl _ _ _) as [done current]. cbn [fst snd] in *.
    destruct current as [|c rest].
    - rewrite H1 by done. split; [done|constructor].
    - split; [done|]. apply Forall_app. split; [done|]. by apply Forall_singleton. }
  destruct Hadj as [Hadj Hok]. split_and!; try done.
  - intros i chunk Hi.
    destruct (adjacent_lookup _ _ _ _ Hadj Hi) as (a & _ & c & rest & -> & _).
    done.
  - intros ->. reflexivity.
Qed.

(** ** Playlist search *)

(** X19. [search_youtube_playlist] never raises: a failing provider and a
    first entry without a link both give [None]; it returns a link exactly
    when the provider returned a non-empty result list whose first entry
    carries that link, whatever entries follow. *)
Theorem X19_playlist_search_never_raises (provider : PlaylistProvider)
    (query : string) :
  ∃ found,
    search_youtube_playlist provider query = Ok found
    ∧ (∀ link, found = Some link
               ↔ ∃ others, provider query 1 = Ok (Some (Some link :: others)))
    ∧ ((∃ e, provider query 1 = Raise e) → found = None)
    ∧ (∀ others, provider query 1 = Ok (Some (None :: others)) → found = None).
Proof.
  unfold search_youtube_playlist.
  destruct (provider query 1) as [[[|[link|] others]|]|e] eqn:E; cbn.
  - exists None. split_and!; [done| |done|done].
    intros link. split; [done|]. by intros (others & [=]).
  - exists (Some link). split_and!; [done| | |].
    + intros link'. split.
      * intros [= ->]. by exists others.
      * by intros (others' & [= -> _]).
    + by intros (e & [=]).
    + by intros others' [=].
  - exists None. split_and!; [done| |done|done].
    intros link. split; [done|]. by intros (others' & [=]).
  - exists None. split_and!; [done| |done|done].
    intros link. split; [done|]. by intros (others & [=]).
  - exists None. split_and!; [done| |done|done].
    intros link. split; [done|]. by intros (others & [=]).
Qed.

(** * Further instances at concrete inputs *)

(** X4 at a provider that returns exactly as many entries as asked for. *)
Lemma X4_limit_witness :
  ∃ playlist,
    create_learning_playlist sample_search "Python" "absolute beginner"
      "2 hours a day" = Ok playlist
    ∧ pl_total_videos playlist ≤ 12.
Proof.
  destruct (X4_limit_keeps_playlist_under_cap sample_search "Python"
              "absolute beginner" "2 hours a day")
    as (playlist & Hp & Htotal & _).
  - intros query max_results entries [= <-].
    rewrite length_fmap, length_seq. lia.
  - exists playlist. split; [exact Hp|exact Htotal].
Defined.

(** X5 at a provider that always raises. *)
Lemma X5_all_searches_fail_witness :
  ∃ playlist,
    create_learning_playlist failing_search "Python" "absolute beginner"
      "2 hours a day" = Ok playlist
    ∧ pl_daily_schedule playlist = [("day_1", make_day [])].
Proof.
  destruct (X5_all_searches_fail failing_search "Python" "absolute beginner"
              "2 hours a day")
    as (playlist & Hp & _ & _ & _ & _ & Hs & _).
  - intros query max_results. eexists. reflexivity.
  - exists playlist. split; [exact Hp|exact Hs].
Defined.

(** X9 without an API key, at a playlist with one scheduled video. *)
Lemma X9_notes_witness :
  let video := mkEntry "Intro" "https://youtu.be/a" "10:00" in
  let playlist_data :=
    mkPlaylist "Python" beginner "absolute beginner" "1 hour a day" 1 (1 # 2)
      (mkPhase "Foundation" "" [sample_video 1]) (mkPhase "Building" "" [])
      (mkPhase "Mastery" "" []) [("day_1", make_day [video])] [] in
  PyStr.contains "https://youtu.be/a"
    (generate_learning_notes ∅ failing_generator "Python" "absolute beginner"
       "1 hour a day" (Some playlist_data)) = true.
Proof.
  intros video playlist_data.
  destruct (X9_notes_list_every_scheduled_video ∅ failing_generator "Python"
              "absolute beginner" "1 hour a day" playlist_data "day_1"
              (make_day [video]) video)
    as (_ & Hurl & _).
  - left. reflexivity.
  - apply list_elem_of_here.
  - apply list_elem_of_here.
  - exact Hurl.
Defined.

(** X10 at the first day of two videos scheduled two a day. *)
Lemma X10_day_block_witness :
  ∃ item,
    generate_daily_schedule [sample_video 1; sample_video 2] "2 hours a day"
      !! 0 = Some item
    ∧ item.1 = "day_1".
Proof.
  assert (H : generate_daily_schedule [sample_video 1; sample_video 2]
                "2 hours a day" !! 0
              = Some ("day_1",
                      make_day [to_entry (sample_video 1);
                                to_entry (sample_video 2)]))
    by reflexivity.
  eexists. split; [exact H|].
  exact (proj1 (X10_day_block_heading _ _ _ _ H)).
Defined.

(** X17 at one unit per character and an available width of 10. *)
Lemma X17_fitting_text_witness :
  _render_wrapped_text char_count "ab cd" 10 = ["ab cd"].
Proof.
  apply (X17_fitting_text_is_one_line char_count "ab cd" 10).
  - intros k Hk.
    assert (Hk' : k = 1 ∨ k = 2) by (cbn in Hk; lia).
    destruct Hk' as [-> | ->]; reflexivity.
  - intros token Hin Hlt.
    assert (E : PyStr.split_space "ab cd" = ["ab"; "cd"]) by reflexivity.
    rewrite E in Hin.
    apply elem_of_cons in Hin as [-> | Hin]; [discriminate Hlt|].
    apply elem_of_cons in Hin as [-> | Hin]; [discriminate Hlt|].
    by apply elem_of_nil in Hin.
Defined.
